(** * differential_threads: thread geometry and differential thread pairs

    A shallow embedding of [differential_threads.py].

    Numbers.  The program computes with [int], [float] and
    [fractions.Fraction] magnitudes wrapped in [pint] quantities.  Here a
    magnitude is an exact rational ([Q], compared with [==]): rounding of
    floating-point operations is outside the model.  The one irrational
    constant, [math.sqrt(3)], is the double that call returns, taken as the
    rational it denotes (see [sqrt3] and [sqrt3_brackets]).

    Units.  A [pint] quantity is represented by its magnitude in
    millimetres (a length) or per millimetre (a thread density); [inch] and
    [per_inch] convert on entry, [to_inch] and [to_per_inch] on display.
    One inch is 25.4 mm exactly.

    Errors.  A Python exception is a [Raise] in the [result] monad. *)

From Stdlib Require Import String.
From Stdlib Require Import QArith Qabs Qminmax ZArith List Bool Lia Lqa.
From Stdlib Require Import Permutation Sorted.
Import ListNotations.
Open Scope Q_scope.

(** ** Exceptions *)

Inductive exn : Type :=
| ValueError
| ZeroDivisionError.

Inductive result (A : Type) : Type :=
| Ok (a : A)
| Raise (e : exn).

Arguments Ok {A} a.
Arguments Raise {A} e.

Definition bind {A B : Type} (c : result A) (k : A -> result B) : result B :=
  match c with
  | Ok a => k a
  | Raise e => Raise e
  end.

Notation "x <- c ;; k" := (bind c (fun x => k))
  (at level 61, c at next level, right associativity).

(** A comprehension whose element expression may raise: the first exception
    ends the evaluation of the whole list. *)
Fixpoint mapM {A B : Type} (f : A -> result B) (l : list A) : result (list B) :=
  match l with
  | [] => Ok []
  | x :: r => y <- f x ;; ys <- mapM f r ;; Ok (y :: ys)
  end.

(** ** Numbers and quantities *)

(** [math.sqrt(3)] is the double [0x1.bb67ae8584caap+0], that is
    [7800463371553962 / 2^52]. *)
Definition sqrt3 : Q := 3900231685776981 # 2251799813685248.

Definition Qlt_bool (x y : Q) : bool :=
  match x ?= y with
  | Lt => true
  | _ => false
  end.

(** [ureg.mm], [ureg.inch] and [1 / ureg.inch] applied to a magnitude. *)
Definition mm (x : Q) : Q := x.
Definition inch (x : Q) : Q := x * 25.4.
Definition per_inch (x : Q) : Q := x / 25.4.

(** [q.to(ureg.inch).magnitude] and [q.to(1 / ureg.inch).magnitude]. *)
Definition to_inch (q : Q) : Q := q / 25.4.
Definition to_per_inch (q : Q) : Q := q * 25.4.

(** Truth value of an optional quantity: [None] is false, and a quantity is
    false exactly when its magnitude is zero.  Returns the quantity when it
    is true. *)
Definition truthy (q : option Q) : option Q :=
  match q with
  | Some x => if Qeq_bool x 0 then None else Some x
  | None => None
  end.

(** Comparison of 2-tuples of quantities as Python compares tuples: the first
    position where the two differ decides. *)
Definition tuple_gt (a b : Q * Q) : bool :=
  if negb (Qeq_bool (fst a) (fst b)) then Qlt_bool (fst b) (fst a)
  else if negb (Qeq_bool (snd a) (snd b)) then Qlt_bool (snd b) (snd a)
  else false.

Definition tuple_lt (a b : Q * Q) : bool :=
  if negb (Qeq_bool (fst a) (fst b)) then Qlt_bool (fst a) (fst b)
  else if negb (Qeq_bool (snd a) (snd b)) then Qlt_bool (snd a) (snd b)
  else false.

(** ** [sorted] *)

(** Python's [sorted] is a stable sort that only asks [x < y].  It is modelled
    by stable insertion: each element goes before the first one it is less
    than.  On two elements this is literally what the list sort does (one
    test, [b < a]); on longer lists every stable sort gives the same result
    when [<] is a strict weak order, as it is for [DifferentialThread]. *)
Section Sorting.
Context {A : Type} (lt : A -> A -> bool).

Fixpoint insert (x : A) (l : list A) : list A :=
  match l with
  | [] => [x]
  | y :: r => if lt x y then x :: y :: r else y :: insert x r
  end.

Definition sorted (l : list A) : list A :=
  fold_left (fun acc x => insert x acc) l [].

(** [x] may stand before [y] in a sorted list: [y < x] is false. *)
Definition precedes (x y : A) : Prop := lt y x = false.

(** Neither of [x] and [y] is less than the other. *)
Definition tied (x y : A) : bool := negb (lt x y) && negb (lt y x).
End Sorting.

(** ** [Thread] *)

Inductive cls : Type :=
| cls_Thread
| cls_ISOThread
| cls_UTSThread
| cls_FractionalUTSThread
| cls_NumberedUTSThread.

Definition cls_eqb (a b : cls) : bool :=
  match a, b with
  | cls_Thread, cls_Thread
  | cls_ISOThread, cls_ISOThread
  | cls_UTSThread, cls_UTSThread
  | cls_FractionalUTSThread, cls_FractionalUTSThread
  | cls_NumberedUTSThread, cls_NumberedUTSThread => true
  | _, _ => false
  end.

(** The four dataclass fields, the class of the instance, and the [number]
    attribute of a [NumberedUTSThread]. *)
Record Thread : Type := mkThread {
  class_of : cls;
  major_diameter : Q;
  minor_diameter : Q;
  pitch : Q;
  tpi : Q;
  number : option Z
}.

(** [Thread.__init__] followed by [Thread.__post_init__]. *)
Definition Thread_init (c : cls) (number : option Z)
    (major_diameter : Q) (pitch tpi : option Q) : result Thread :=
  pt <- match truthy pitch with
        | Some p => Ok (p, 1 / p)
        | None =>
            match truthy tpi with
            | Some d => Ok (1 / d, d)
            | None => Raise ValueError
            end
        end ;;
  let '(pitch, tpi) := pt in
  Ok {| class_of := c;
        major_diameter := major_diameter;
        minor_diameter := major_diameter - (5 * sqrt3 * pitch) / 8;
        pitch := pitch;
        tpi := tpi;
        number := number |}.

(** [Thread.__gt__]. *)
Definition Thread_gt (self other : Thread) : bool :=
  tuple_gt (major_diameter self, minor_diameter self)
           (major_diameter other, minor_diameter other).

(** The [__eq__] the dataclass decorator generates, inherited by every
    subclass: [None] stands for [NotImplemented]. *)
Definition Thread_eq (self other : Thread) : option bool :=
  if cls_eqb (class_of other) (class_of self) then
    Some (Qeq_bool (major_diameter self) (major_diameter other)
          && Qeq_bool (minor_diameter self) (minor_diameter other)
          && Qeq_bool (pitch self) (pitch other)
          && Qeq_bool (tpi self) (tpi other))
  else None.

(** [self != other]: when [__eq__] is not implemented on either side, Python
    compares identities, and two instances of different classes are never
    the same object. *)
Definition Thread_ne (self other : Thread) : bool :=
  match Thread_eq self other with
  | Some r => negb r
  | None => true
  end.

(** [__lt__] as [functools.total_ordering] derives it from [__gt__]. *)
Definition Thread_lt (self other : Thread) : bool :=
  negb (Thread_gt self other) && Thread_ne self other.

(** *** Thread variants *)

Definition ISOThread_init (major_diameter pitch : Q) : result Thread :=
  Thread_init cls_ISOThread None major_diameter (Some pitch) None.

Definition ISOThread_from_mm (major_diameter pitch : Q) : result Thread :=
  ISOThread_init (mm major_diameter) (mm pitch).

(** [UTSThread.__init__], for a direct instance of [UTSThread]. *)
Definition UTSThread_init (major_diameter tpi : Q) : result Thread :=
  Thread_init cls_UTSThread None major_diameter None (Some tpi).

Definition FractionalUTSThread_init (major_diameter tpi : Q) : result Thread :=
  Thread_init cls_FractionalUTSThread None major_diameter None (Some tpi).

(** [fractions.Fraction(numerator, denominator)] raises on a zero
    denominator. *)
Definition Fraction (numerator denominator : Z) : result Q :=
  if (denominator =? 0)%Z then Raise ZeroDivisionError
  else Ok (inject_Z numerator / inject_Z denominator).

Definition FractionalUTSThread_from_fraction
    (numerator denominator tpi : Z) : result Thread :=
  f <- Fraction numerator denominator ;;
  FractionalUTSThread_init (inch f) (per_inch (inject_Z tpi)).

Definition NumberedUTSThread_init
    (major_diameter tpi : Q) (number : Z) : result Thread :=
  Thread_init cls_NumberedUTSThread (Some number) major_diameter None (Some tpi).

Definition NumberedUTSThread_from_number (number tpi : Z) : result Thread :=
  NumberedUTSThread_init
    (inch (inject_Z number * 0.013) + inch 0.06)
    (per_inch (inject_Z tpi)) number.

(** ** [DifferentialThread] *)

Record DifferentialThread : Type := mkDifferentialThread {
  thread_pair : Thread * Thread;
  effective_pitch : Q;
  effective_tpi : Q;
  radial_clearance : Q
}.

(** [DifferentialThread.__init__] followed by [__post_init__].  Dividing by a
    zero quantity raises [ZeroDivisionError]. *)
Definition DifferentialThread_init (thread_pair : Thread * Thread)
    : result DifferentialThread :=
  match sorted Thread_lt [fst thread_pair; snd thread_pair] with
  | [smaller_thread; larger_thread] =>
      let effective_pitch := Qabs (pitch smaller_thread - pitch larger_thread) in
      effective_tpi <-
        (if Qeq_bool effective_pitch 0 then Raise ZeroDivisionError
         else Ok (1 / effective_pitch)) ;;
      let radial_clearance :=
        (minor_diameter larger_thread - major_diameter smaller_thread) / 2 in
      Ok {| thread_pair := thread_pair;
            effective_pitch := effective_pitch;
            effective_tpi := effective_tpi;
            radial_clearance :=
              if Qlt_bool 0 radial_clearance then radial_clearance
              else inch 0.0 |}
  | _ => Raise ValueError
  end.

(** The [__lt__] generated by [dataclass(order=True)]: the fields declared
    with [compare=False] are left out of the compared tuples. *)
Definition DifferentialThread_lt (self other : DifferentialThread) : bool :=
  tuple_lt (effective_pitch self, radial_clearance self)
           (effective_pitch other, radial_clearance other).

(** ** Catalog generation *)

(** [itertools.combinations(l, 2)]. *)
Fixpoint combinations2 {A : Type} (l : list A) : list (A * A) :=
  match l with
  | [] => []
  | x :: r => map (pair x) r ++ combinations2 r
  end.

Definition pitch_differs (p : Thread * Thread) : bool :=
  negb (Qeq_bool (pitch (fst p)) (pitch (snd p))).

(** The argument of [json.dump] before it is rendered: the sorted sequence
    of differentials. *)
Definition differentials (threads : list Thread)
    : result (list DifferentialThread) :=
  ds <- mapM DifferentialThread_init
             (filter pitch_differs (combinations2 threads)) ;;
  Ok (sorted DifferentialThread_lt ds).

(** One object of the JSON document. *)
Record entry : Type := mkEntry {
  entry_threads : list string;
  entry_radial_clearance : string;
  entry_effective_pitch : string;
  entry_effective_tpi : string
}.

(** Rendering is kept abstract: [fmt] is [str] of a magnitude, [fixed n] the
    format [0.nf], and [repr] the representation the dataclass decorator
    generates, which is what [str] gives for a class without [__str__]. *)
Section Rendering.
Variable fmt : Q -> string.
Variable fixed : nat -> Q -> string.
Variable repr : Thread -> string.

(** [UTSThread.formatted_tpi], set once by [UTSThread.__init__]. *)
Definition formatted_tpi (t : Thread) : string :=
  fmt (to_per_inch (tpi t)).

(** [str(thread)].  A [NumberedUTSThread] always carries its number. *)
Definition Thread_str (t : Thread) : string :=
  match class_of t with
  | cls_ISOThread =>
      ("M" ++ fmt (major_diameter t) ++ "-" ++ fmt (pitch t))%string
  | cls_FractionalUTSThread =>
      (fmt (to_inch (major_diameter t)) ++ String (Ascii.ascii_of_nat 34) "-"
         ++ formatted_tpi t)%string
  | cls_NumberedUTSThread =>
      match number t with
      | Some n => ("#" ++ fmt (inject_Z n) ++ "-" ++ formatted_tpi t)%string
      | None => repr t
      end
  | cls_Thread | cls_UTSThread => repr t
  end.

Definition entry_of (differential : DifferentialThread) : entry :=
  {| entry_threads :=
       [Thread_str (fst (thread_pair differential));
        Thread_str (snd (thread_pair differential))];
     entry_radial_clearance :=
       (fixed 3 (to_inch (radial_clearance differential)) ++ " in")%string;
     entry_effective_pitch :=
       (fixed 5 (to_inch (effective_pitch differential)) ++ " in")%string;
     entry_effective_tpi :=
       fixed 2 (to_per_inch (effective_tpi differential)) |}.

Definition json_entries (threads : list Thread) : result (list entry) :=
  ds <- differentials threads ;;
  Ok (map entry_of ds).
End Rendering.

(** ** The catalog *)

Definition sequence {A : Type} (l : list (result A)) : result (list A) :=
  mapM (fun c => c) l.

(** The module-level list [THREADS]: building it raises if any element
    does. *)
Definition THREADS : result (list Thread) := sequence [
    ISOThread_from_mm 1 0.25;
    ISOThread_from_mm 1 0.2;
    ISOThread_from_mm 1.2 0.25;
    ISOThread_from_mm 1.2 0.2;
    ISOThread_from_mm 1.4 0.3;
    ISOThread_from_mm 1.4 0.2;
    ISOThread_from_mm 1.6 0.35;
    ISOThread_from_mm 1.6 0.2;
    ISOThread_from_mm 1.8 0.35;
    ISOThread_from_mm 1.8 0.2;
    ISOThread_from_mm 2 0.4;
    ISOThread_from_mm 2 0.25;
    ISOThread_from_mm 2.5 0.45;
    ISOThread_from_mm 2.5 0.35;
    ISOThread_from_mm 3 0.5;
    ISOThread_from_mm 3 0.35;
    ISOThread_from_mm 3.5 0.6;
    ISOThread_from_mm 3.5 0.35;
    ISOThread_from_mm 4 0.7;
    ISOThread_from_mm 4 0.5;
    ISOThread_from_mm 5 0.8;
    ISOThread_from_mm 5 0.5;
    ISOThread_from_mm 5.5 0.9;
    ISOThread_from_mm 5.5 0.5;
    ISOThread_from_mm 6 1.0;
    ISOThread_from_mm 6 0.75;
    ISOThread_from_mm 7 1;
    ISOThread_from_mm 7 0.75;
    ISOThread_from_mm 8 1.25;
    ISOThread_from_mm 8 1.0;
    ISOThread_from_mm 8 0.75;
    ISOThread_from_mm 10 1.5;
    ISOThread_from_mm 10 1.25;
    ISOThread_from_mm 10 1.0;
    ISOThread_from_mm 12 1.75;
    ISOThread_from_mm 12 1.5;
    ISOThread_from_mm 12 1.25;
    ISOThread_from_mm 14 2.0;
    ISOThread_from_mm 14 1.5;
    ISOThread_from_mm 16 2.0;
    ISOThread_from_mm 16 1.5;
    ISOThread_from_mm 18 2.5;
    ISOThread_from_mm 18 2.0;
    ISOThread_from_mm 18 1.5;
    ISOThread_from_mm 20 2.5;
    ISOThread_from_mm 20 2.0;
    ISOThread_from_mm 20 1.5;
    ISOThread_from_mm 22 2.5;
    ISOThread_from_mm 22 2.0;
    ISOThread_from_mm 22 1.5;
    ISOThread_from_mm 24 3.0;
    ISOThread_from_mm 24 2.0;
    ISOThread_from_mm 27 3.0;
    ISOThread_from_mm 27 2.0;
    ISOThread_from_mm 30 3.5;
    ISOThread_from_mm 30 2.0;
    ISOThread_from_mm 33 3.5;
    ISOThread_from_mm 33 2.0;
    ISOThread_from_mm 36 4.0;
    ISOThread_from_mm 36 3.0;
    ISOThread_from_mm 39 4.0;
    ISOThread_from_mm 39 3.0;
    ISOThread_from_mm 42 4.5;
    ISOThread_from_mm 42 3.0;
    ISOThread_from_mm 45 4.5;
    ISOThread_from_mm 45 3.0;
    ISOThread_from_mm 48 5.0;
    ISOThread_from_mm 48 3.0;
    ISOThread_from_mm 52 5.0;
    ISOThread_from_mm 52 4.0;
    ISOThread_from_mm 56 5.5;
    ISOThread_from_mm 56 4.0;
    ISOThread_from_mm 60 5.5;
    ISOThread_from_mm 60 4.0;
    ISOThread_from_mm 62 6.0;
    ISOThread_from_mm 62 4.0;
    NumberedUTSThread_from_number 0 80;
    NumberedUTSThread_from_number 1 64;
    NumberedUTSThread_from_number 1 72;
    NumberedUTSThread_from_number 2 56;
    NumberedUTSThread_from_number 2 64;
    NumberedUTSThread_from_number 3 48;
    NumberedUTSThread_from_number 3 56;
    NumberedUTSThread_from_number 4 40;
    NumberedUTSThread_from_number 4 48;
    NumberedUTSThread_from_number 5 40;
    NumberedUTSThread_from_number 5 44;
    NumberedUTSThread_from_number 6 32;
    NumberedUTSThread_from_number 6 40;
    NumberedUTSThread_from_number 8 32;
    NumberedUTSThread_from_number 8 36;
    NumberedUTSThread_from_number 10 24;
    NumberedUTSThread_from_number 10 28;
    NumberedUTSThread_from_number 12 24;
    NumberedUTSThread_from_number 12 38;
    NumberedUTSThread_from_number 12 32;
    FractionalUTSThread_from_fraction 1 4 20;
    FractionalUTSThread_from_fraction 1 4 28;
    FractionalUTSThread_from_fraction 1 4 32;
    FractionalUTSThread_from_fraction 5 16 18;
    FractionalUTSThread_from_fraction 5 16 24;
    FractionalUTSThread_from_fraction 5 16 32;
    FractionalUTSThread_from_fraction 3 8 16;
    FractionalUTSThread_from_fraction 3 8 24;
    FractionalUTSThread_from_fraction 3 8 32;
    FractionalUTSThread_from_fraction 7 16 14;
    FractionalUTSThread_from_fraction 7 16 20;
    FractionalUTSThread_from_fraction 7 16 28;
    FractionalUTSThread_from_fraction 1 2 13;
    FractionalUTSThread_from_fraction 1 2 20;
    FractionalUTSThread_from_fraction 1 2 28;
    FractionalUTSThread_from_fraction 9 16 12;
    FractionalUTSThread_from_fraction 9 16 18;
    FractionalUTSThread_from_fraction 9 16 24;
    FractionalUTSThread_from_fraction 5 8 11;
    FractionalUTSThread_from_fraction 5 8 18;
    FractionalUTSThread_from_fraction 5 8 24;
    FractionalUTSThread_from_fraction 3 4 10;
    FractionalUTSThread_from_fraction 3 4 16;
    FractionalUTSThread_from_fraction 3 4 20;
    FractionalUTSThread_from_fraction 7 8 9;
    FractionalUTSThread_from_fraction 7 8 14;
    FractionalUTSThread_from_fraction 7 8 20
  ].

(** ** Vocabulary of the properties *)

(** The inputs the specification calls valid: exactly one of pitch and
    density is supplied, and it is positive. *)
Definition valid_inputs (p d : option Q) : Prop :=
  exists x, 0 < x /\ (p = Some x /\ d = None \/ p = None /\ d = Some x).

(** Ascending order on the tuple (major diameter, minor diameter). *)
Definition Thread_le (s l : Thread) : Prop :=
  major_diameter s < major_diameter l \/
  (major_diameter s == major_diameter l /\
   minor_diameter s <= minor_diameter l).

(** The clamping of a raw clearance. *)
Definition clamp (raw : Q) : Q :=
  if Qlt_bool 0 raw then raw else inch 0.0.

(** All index pairs [(i, j)] with [i < j < n], in the order
    [itertools.combinations] visits them. *)
Fixpoint index_pairs (n : nat) : list (nat * nat) :=
  match n with
  | O => []
  | S m =>
      map (fun j => (O, S j)) (seq 0 m)
      ++ map (fun ij => (S (fst ij), S (snd ij))) (index_pairs m)
  end.

(** The pair of elements at a pair of positions. *)
Definition pair_at {A : Type} (l : list A) (dflt : A) (ij : nat * nat)
    : A * A :=
  (nth (fst ij) l dflt, nth (snd ij) l dflt).

(** No two elements of a list are related by [same]. *)
Fixpoint distinctb {A : Type} (same : A -> A -> bool) (l : list A) : bool :=
  match l with
  | [] => true
  | x :: r => negb (existsb (same x) r) && distinctb same r
  end.

(** Two threads of the same class, major diameter and pitch. *)
Definition same_thread (a b : Thread) : bool :=
  cls_eqb (class_of a) (class_of b)
  && Qeq_bool (major_diameter a) (major_diameter b)
  && Qeq_bool (pitch a) (pitch b).

(** A thread some call of the constructor returns. *)
Definition built (t : Thread) : Prop :=
  exists c n D p d, Thread_init c n D p d = Ok t.

(** ** Sample inputs *)

(** Catalog entries used as concrete inputs. *)
Definition M1_025 : Thread :=
  mkThread cls_ISOThread 1 (1 - (5 * sqrt3 * 0.25) / 8) 0.25 (1 / 0.25) None.

Definition M1p2_02 : Thread :=
  mkThread cls_ISOThread 1.2 (1.2 - (5 * sqrt3 * 0.2) / 8) 0.2 (1 / 0.2) None.

Definition M2_04 : Thread :=
  mkThread cls_ISOThread 2 (2 - (5 * sqrt3 * 0.4) / 8) 0.4 (1 / 0.4) None.

Definition N0_80 : Thread :=
  mkThread cls_NumberedUTSThread
    (inch (inject_Z 0 * 0.013) + inch 0.06)
    (inch (inject_Z 0 * 0.013) + inch 0.06
     - (5 * sqrt3 * (1 / per_inch (inject_Z 80))) / 8)
    (1 / per_inch (inject_Z 80)) (per_inch (inject_Z 80)) (Some 0%Z).

Definition M1_02 : Thread :=
  mkThread cls_ISOThread 1 (1 - (5 * sqrt3 * 0.2) / 8) 0.2 (1 / 0.2) None.

Definition M2_025 : Thread :=
  mkThread cls_ISOThread 2 (2 - (5 * sqrt3 * 0.25) / 8) 0.25 (1 / 0.25) None.

Definition small_catalog : list Thread := [M1_025; M1p2_02; M2_04; N0_80].

(** The quarter-inch, 20 threads per inch thread, as a direct [UTSThread]
    and as a [FractionalUTSThread]. *)
Definition U_quarter_20 : Thread :=
  mkThread cls_UTSThread (inch (1 # 4))
    (inch (1 # 4) - (5 * sqrt3 * (1 / per_inch 20)) / 8)
    (1 / per_inch 20) (per_inch 20) None.

Definition F_quarter_20 : Thread :=
  mkThread cls_FractionalUTSThread (inch (inject_Z 1 / inject_Z 4))
    (inch (inject_Z 1 / inject_Z 4)
     - (5 * sqrt3 * (1 / per_inch (inject_Z 20))) / 8)
    (1 / per_inch (inject_Z 20)) (per_inch (inject_Z 20)) None.

(** A sequence in which one thread occurs twice. *)
Definition repeating_catalog : list Thread := [M1_025; M1p2_02; M1_025].

Definition small_output : list DifferentialThread :=
  Eval vm_compute in
    match differentials small_catalog with
    | Ok ds => ds
    | Raise _ => []
    end.

(** The differential of two threads, written out field by field. *)
Definition differential_of (a b s l : Thread) : DifferentialThread :=
  mkDifferentialThread (a, b)
    (Qabs (pitch s - pitch l))
    (1 / Qabs (pitch s - pitch l))
    (clamp ((minor_diameter l - major_diameter s) / 2)).

(** Renderers that print nothing, for concrete inputs. *)
Definition no_fmt (q : Q) : string := EmptyString.
Definition no_fixed (n : nat) (q : Q) : string := EmptyString.
Definition no_repr (t : Thread) : string := EmptyString.

(** * Properties *)

(** ** Numbers *)

Lemma Qlt_bool_iff (x y : Q) : Qlt_bool x y = true <-> x < y.
Proof.
  unfold Qlt_bool. rewrite Qlt_alt.
  destruct (x ?= y); split; congruence.
Qed.

Lemma Qlt_bool_false_iff (x y : Q) : Qlt_bool x y = false <-> y <= x.
Proof.
  rewrite <- not_true_iff_false, Qlt_bool_iff. split.
  - apply Qnot_lt_le.
  - apply Qle_not_lt.
Qed.

Lemma Qeq_bool_false_iff (x y : Q) : Qeq_bool x y = false <-> ~ x == y.
Proof.
  rewrite <- not_true_iff_false, Qeq_bool_iff. tauto.
Qed.

(** [sqrt3] is the double just below the square root of three: the root lies
    less than half a unit in the last place ([2^-53]) above it, so [sqrt3] is
    the correctly rounded binary64 square root. *)
Lemma sqrt3_brackets :
  sqrt3 * sqrt3 < 3 /\
  3 < (sqrt3 + (1 # 9007199254740992)) * (sqrt3 + (1 # 9007199254740992)).
Proof. split; reflexivity. Qed.

(** ** Truth values *)

Lemma truthy_None_iff (q : option Q) :
  truthy q = None <-> q = None \/ exists x, q = Some x /\ x == 0.
Proof.
  destruct q as [x|]; simpl.
  - destruct (Qeq_bool x 0) eqn:E; split; intro H.
    + right. exists x. split; [reflexivity | now apply Qeq_bool_iff].
    + reflexivity.
    + discriminate.
    + destruct H as [H | [y [Hy Hz]]]; [discriminate|].
      injection Hy as <-. apply Qeq_bool_false_iff in E. contradiction.
  - split; auto.
Qed.

Lemma truthy_nonzero (x : Q) : ~ x == 0 -> truthy (Some x) = Some x.
Proof.
  intro H. simpl. apply Qeq_bool_false_iff in H. now rewrite H.
Qed.

Lemma truthy_Some (q : option Q) (x : Q) :
  truthy q = Some x -> q = Some x /\ ~ x == 0.
Proof.
  destruct q as [y|]; simpl; [|discriminate].
  destruct (Qeq_bool y 0) eqn:E; [discriminate|].
  intro H. injection H as <-. split; [reflexivity|].
  now apply Qeq_bool_false_iff.
Qed.

(** ** Thread construction *)

(** What a successful construction stores, by the branch taken. *)
Lemma Thread_init_pitch (c : cls) (n : option Z) (D P : Q) (d : option Q) :
  ~ P == 0 ->
  Thread_init c n D (Some P) d =
  Ok (mkThread c D (D - (5 * sqrt3 * P) / 8) P (1 / P) n).
Proof.
  intro H. unfold Thread_init. now rewrite (truthy_nonzero P H).
Qed.

Lemma Thread_init_tpi (c : cls) (n : option Z) (D d : Q) :
  ~ d == 0 ->
  Thread_init c n D None (Some d) =
  Ok (mkThread c D (D - (5 * sqrt3 * (1 / d)) / 8) (1 / d) d n).
Proof.
  intro H. unfold Thread_init.
  change (truthy None) with (@None Q). now rewrite (truthy_nonzero d H).
Qed.

Lemma Qpos_nonzero (x : Q) : 0 < x -> ~ x == 0.
Proof. intros H E. rewrite E in H. exact (Qlt_irrefl 0 H). Qed.

(** Every successful construction satisfies the relations of
    [__post_init__]. *)
Lemma Thread_init_Ok (c : cls) (n : option Z) (D : Q) (p d : option Q)
    (t : Thread) :
  Thread_init c n D p d = Ok t ->
  class_of t = c /\ major_diameter t = D /\ number t = n /\
  minor_diameter t = D - (5 * sqrt3 * pitch t) / 8 /\
  ~ pitch t == 0 /\ pitch t * tpi t == 1.
Proof.
  unfold Thread_init.
  destruct (truthy p) as [x|] eqn:Ep.
  - apply truthy_Some in Ep as [_ Hx]. simpl. intro H. injection H as <-.
    simpl. repeat split; auto. field. exact Hx.
  - destruct (truthy d) as [y|] eqn:Ed; simpl; [|discriminate].
    apply truthy_Some in Ed as [_ Hy]. intro H. injection H as <-.
    simpl. repeat split; auto.
    + intro E. apply Hy.
      assert (K : y * (1 / y) == 1) by (field; exact Hy).
      rewrite E in K. rewrite Qmult_0_r in K. discriminate K.
    + field. exact Hy.
Qed.

(** C1.  A thread built from a positive major diameter [D] and a positive
    pitch [P], given directly or as the reciprocal of a given density, has
    minor diameter [D - (5 * sqrt3 * P) / 8], where [sqrt3] is the double
    within half a unit in the last place of the square root of three; for a
    major diameter of 1 mm and a pitch of 0.25 mm that is
    [1 - (5 * sqrt3 * 0.25) / 8] mm, between 0.729 and 0.730 mm. *)
Theorem minor_diameter_formula :
  (forall (c : cls) (n : option Z) (D P : Q) (d : option Q),
      0 < D -> 0 < P ->
      exists t, Thread_init c n D (Some P) d = Ok t /\
                pitch t = P /\
                minor_diameter t = D - (5 * sqrt3 * P) / 8) /\
  (forall (c : cls) (n : option Z) (D d : Q),
      0 < D -> 0 < d ->
      exists t, Thread_init c n D None (Some d) = Ok t /\
                pitch t = 1 / d /\
                minor_diameter t = D - (5 * sqrt3 * (1 / d)) / 8) /\
  (sqrt3 * sqrt3 < 3 /\
   3 < (sqrt3 + (1 # 9007199254740992)) * (sqrt3 + (1 # 9007199254740992))) /\
  (exists t, ISOThread_from_mm 1 0.25 = Ok t /\
             minor_diameter t = 1 - (5 * sqrt3 * 0.25) / 8 /\
             0.729 < minor_diameter t /\ minor_diameter t < 0.730).
Proof.
  split; [|split; [|split]].
  - intros c n D P d _ HP. eexists. split.
    + apply Thread_init_pitch. now apply Qpos_nonzero.
    + split; reflexivity.
  - intros c n D d _ Hd. eexists. split.
    + apply Thread_init_tpi. now apply Qpos_nonzero.
    + split; reflexivity.
  - exact sqrt3_brackets.
  - eexists. split; [reflexivity|]. split; [reflexivity|].
    split; reflexivity.
Qed.

Lemma minor_diameter_formula_witness :
  (exists t, Thread_init cls_ISOThread None 6 (Some 1) None = Ok t /\
             pitch t = 1 /\
             minor_diameter t = 6 - (5 * sqrt3 * 1) / 8) /\
  (exists t, Thread_init cls_UTSThread None (inch 0.25) None
               (Some (per_inch 20)) = Ok t /\
             pitch t = 1 / per_inch 20 /\
             minor_diameter t
             = inch 0.25 - (5 * sqrt3 * (1 / per_inch 20)) / 8).
Proof.
  split.
  - apply (proj1 minor_diameter_formula cls_ISOThread None 6 1 None);
      reflexivity.
  - apply (proj1 (proj2 minor_diameter_formula) cls_UTSThread None
             (inch 0.25) (per_inch 20)); reflexivity.
Defined.

(** C4, as the claim states it, fails: a negative pitch is a supplied
    non-positive value, and the construction succeeds. *)
Lemma negative_pitch_is_accepted :
  -0.25 <= 0 /\
  Thread_init cls_Thread None 1 (Some (-0.25)) None =
  Ok (mkThread cls_Thread 1 (1 - (5 * sqrt3 * -0.25) / 8) (-0.25)
               (1 / -0.25) None).
Proof. split; [discriminate | reflexivity]. Qed.

(** C4, amended.  Construction raises exactly when each of pitch and density
    is either absent or of zero magnitude, and the exception is then
    [ValueError]; in every other case it returns a thread.  Neither the sign
    of a nonzero value nor the major diameter is examined.  In particular it
    succeeds when exactly one of the two is supplied and positive. *)
Theorem Thread_init_raises_iff :
  forall (c : cls) (n : option Z) (D : Q) (p d : option Q),
    (Thread_init c n D p d = Raise ValueError <->
     (p = None \/ exists x, p = Some x /\ x == 0) /\
     (d = None \/ exists x, d = Some x /\ x == 0)) /\
    (forall e, Thread_init c n D p d = Raise e -> e = ValueError) /\
    ((exists x, 0 < x /\ (p = Some x /\ d = None \/ p = None /\ d = Some x)) ->
     exists t, Thread_init c n D p d = Ok t).
Proof.
  intros c n D p d.
  rewrite <- !truthy_None_iff.
  split; [|split].
  - unfold Thread_init.
    destruct (truthy p) as [x|]; simpl.
    + split; [discriminate | intros [H _]; discriminate].
    + destruct (truthy d) as [y|]; simpl.
      * split; [discriminate | intros [_ H]; discriminate].
      * split; auto.
  - intro e. unfold Thread_init.
    destruct (truthy p) as [x|]; simpl; [discriminate|].
    destruct (truthy d) as [y|]; simpl; [discriminate|].
    congruence.
  - intros [x [Hx [[-> ->] | [-> ->]]]].
    + eexists. apply Thread_init_pitch. now apply Qpos_nonzero.
    + eexists. apply Thread_init_tpi. now apply Qpos_nonzero.
Qed.

Lemma Thread_init_raises_iff_witness :
  exists t, Thread_init cls_UTSThread None 6 None (Some (1 # 2)) = Ok t.
Proof.
  apply (proj2 (proj2 (Thread_init_raises_iff cls_UTSThread None 6 None
                         (Some (1 # 2))))).
  exists (1 # 2). split; [reflexivity|]. right. split; reflexivity.
Defined.

(** C7.  A thread built from a positive major diameter and exactly one
    positive value among pitch and density stores a pitch and a density whose
    product is one, and its minor diameter is below its major diameter. *)
Theorem Thread_invariants :
  forall (c : cls) (n : option Z) (D : Q) (p d : option Q),
    0 < D -> valid_inputs p d ->
    exists t, Thread_init c n D p d = Ok t /\
              pitch t * tpi t == 1 /\
              minor_diameter t < major_diameter t.
Proof.
  intros c n D p d _ [x [Hx [[-> ->] | [-> ->]]]].
  - eexists. split; [apply Thread_init_pitch; now apply Qpos_nonzero|].
    simpl. split.
    + field. now apply Qpos_nonzero.
    + unfold sqrt3, Qdiv. change (/ 8) with (1 # 8). lra.
  - eexists. split; [apply Thread_init_tpi; now apply Qpos_nonzero|].
    simpl. split.
    + field. now apply Qpos_nonzero.
    + assert (K : 0 < 1 / x).
      { unfold Qdiv. rewrite Qmult_1_l. now apply Qinv_lt_0_compat. }
      revert K. generalize (1 / x). intros y K.
      unfold sqrt3, Qdiv. change (/ 8) with (1 # 8). lra.
Qed.

Lemma Thread_invariants_witness :
  exists t, Thread_init cls_NumberedUTSThread (Some 0%Z) (inch 0.06) None
              (Some (per_inch 80)) = Ok t /\
            pitch t * tpi t == 1 /\
            minor_diameter t < major_diameter t.
Proof.
  apply (Thread_invariants cls_NumberedUTSThread (Some 0%Z) (inch 0.06) None
           (Some (per_inch 80))).
  - reflexivity.
  - exists (per_inch 80). split; [reflexivity|]. right. split; reflexivity.
Defined.

(** C9.  With a positive pitch and a positive density both supplied,
    construction succeeds, the supplied density plays no part, and the stored
    density is the reciprocal of the pitch. *)
Theorem pitch_overrides_density :
  forall (c : cls) (n : option Z) (D P d : Q),
    0 < P -> 0 < d ->
    Thread_init c n D (Some P) (Some d) = Thread_init c n D (Some P) None /\
    exists t, Thread_init c n D (Some P) (Some d) = Ok t /\
              pitch t = P /\ tpi t = 1 / P.
Proof.
  intros c n D P d HP _.
  rewrite !Thread_init_pitch by now apply Qpos_nonzero.
  split; [reflexivity|]. eexists. split; [reflexivity|]. split; reflexivity.
Qed.

Lemma pitch_overrides_density_witness :
  Thread_init cls_Thread None 1 (Some 0.25) (Some 7) =
  Thread_init cls_Thread None 1 (Some 0.25) None /\
  exists t, Thread_init cls_Thread None 1 (Some 0.25) (Some 7) = Ok t /\
            pitch t = 0.25 /\ tpi t = 1 / 0.25.
Proof.
  apply (pitch_overrides_density cls_Thread None 1 0.25 7); reflexivity.
Defined.

(** ** Ordering of threads *)

Lemma tuple_gt_true (a b : Q * Q) :
  tuple_gt a b = true ->
  fst b < fst a \/ (fst a == fst b /\ snd b < snd a).
Proof.
  unfold tuple_gt.
  destruct (Qeq_bool (fst a) (fst b)) eqn:E1; simpl.
  - apply Qeq_bool_iff in E1.
    destruct (Qeq_bool (snd a) (snd b)); simpl; [discriminate|].
    rewrite Qlt_bool_iff. auto.
  - rewrite Qlt_bool_iff. auto.
Qed.

Lemma tuple_gt_false (a b : Q * Q) :
  tuple_gt a b = false ->
  fst a < fst b \/ (fst a == fst b /\ snd a <= snd b).
Proof.
  unfold tuple_gt.
  destruct (Qeq_bool (fst a) (fst b)) eqn:E1; simpl.
  - apply Qeq_bool_iff in E1.
    destruct (Qeq_bool (snd a) (snd b)) eqn:E2; simpl.
    + apply Qeq_bool_iff in E2. intros _. right. split; [exact E1|].
      rewrite E2. apply Qle_refl.
    + rewrite Qlt_bool_false_iff. auto.
  - apply Qeq_bool_false_iff in E1. rewrite Qlt_bool_false_iff.
    intro H. left. apply Qle_lt_or_eq in H as [H | H]; [exact H|].
    contradiction.
Qed.

Lemma sorted_two {A : Type} (lt : A -> A -> bool) (a b : A) :
  sorted lt [a; b] = if lt b a then [b; a] else [a; b].
Proof. reflexivity. Qed.

(** [sorted] puts two threads in ascending order of their keys. *)
Lemma sorted_threads (a b : Thread) :
  exists s l, sorted Thread_lt [a; b] = [s; l] /\
              ((s, l) = (a, b) \/ (s, l) = (b, a)) /\
              Thread_le s l.
Proof.
  rewrite sorted_two. unfold Thread_lt.
  destruct (Thread_gt b a) eqn:G; simpl.
  - exists a, b. split; [reflexivity|]. split; [now left|].
    apply tuple_gt_true in G. simpl in G. destruct G as [G | [G1 G2]].
    + now left.
    + right. split; [now symmetry | now apply Qlt_le_weak].
  - destruct (Thread_ne b a) eqn:N.
    + exists b, a. split; [reflexivity|]. split; [now right|].
      apply tuple_gt_false in G. exact G.
    + exists a, b. split; [reflexivity|]. split; [now left|].
      unfold Thread_ne, Thread_eq in N.
      destruct (cls_eqb (class_of a) (class_of b)); [|discriminate].
      apply negb_false_iff in N.
      apply andb_prop in N as [N _]. apply andb_prop in N as [N _].
      apply andb_prop in N as [N1 N2].
      apply Qeq_bool_iff in N1, N2.
      right. split; [now symmetry|]. rewrite N2. apply Qle_refl.
Qed.

(** ** Differential pairs *)

Lemma Qabs_zero_iff (x : Q) : Qabs x == 0 <-> x == 0.
Proof.
  split; intro H.
  - revert H. apply Qabs_case; intros K H; lra.
  - rewrite H. reflexivity.
Qed.

(** The fields a successful construction stores. *)
Lemma DifferentialThread_init_Ok (tp : Thread * Thread)
    (d : DifferentialThread) :
  DifferentialThread_init tp = Ok d ->
  exists s l,
    sorted Thread_lt [fst tp; snd tp] = [s; l] /\
    ((s, l) = tp \/ (s, l) = (snd tp, fst tp)) /\
    Thread_le s l /\
    thread_pair d = tp /\
    effective_pitch d = Qabs (pitch s - pitch l) /\
    ~ effective_pitch d == 0 /\
    effective_tpi d = 1 / effective_pitch d /\
    radial_clearance d =
      clamp ((minor_diameter l - major_diameter s) / 2).
Proof.
  unfold DifferentialThread_init.
  destruct (sorted_threads (fst tp) (snd tp)) as [s [l [E [P L]]]].
  rewrite E.
  destruct (Qeq_bool (Qabs (pitch s - pitch l)) 0) eqn:Z; simpl;
    [discriminate|].
  intro H. injection H as <-. simpl.
  exists s, l. split; [reflexivity|].
  split; [destruct tp; exact P|]. split; [exact L|].
  split; [reflexivity|]. split; [reflexivity|].
  split; [now apply Qeq_bool_false_iff|]. split; reflexivity.
Qed.

(** Construction succeeds on two threads of different pitch. *)
Lemma DifferentialThread_init_total (a b : Thread) :
  ~ pitch a == pitch b ->
  exists d, DifferentialThread_init (a, b) = Ok d.
Proof.
  intro H. unfold DifferentialThread_init. simpl fst. simpl snd.
  destruct (sorted_threads a b) as [s [l [E [P _]]]]. rewrite E.
  assert (Z : Qeq_bool (Qabs (pitch s - pitch l)) 0 = false).
  { apply Qeq_bool_false_iff. rewrite Qabs_zero_iff. intro K.
    apply H. destruct P as [P | P]; injection P as -> ->; lra. }
  rewrite Z. simpl. eexists. reflexivity.
Qed.

(** Construction raises on two threads of equal pitch: the reciprocal of
    the zero effective pitch is a division by zero. *)
Lemma DifferentialThread_init_equal_pitch (a b : Thread) :
  pitch a == pitch b ->
  DifferentialThread_init (a, b) = Raise ZeroDivisionError.
Proof.
  intro H. unfold DifferentialThread_init. simpl fst. simpl snd.
  destruct (sorted_threads a b) as [s [l [E [P _]]]]. rewrite E.
  assert (Z : Qeq_bool (Qabs (pitch s - pitch l)) 0 = true).
  { apply Qeq_bool_iff. rewrite Qabs_zero_iff.
    destruct P as [P | P]; injection P as -> ->; lra. }
  rewrite Z. reflexivity.
Qed.

Lemma clamp_spec (raw : Q) :
  (0 < raw -> clamp raw = raw) /\
  (raw <= 0 -> clamp raw == 0) /\
  0 <= clamp raw.
Proof.
  unfold clamp. destruct (Qlt_bool 0 raw) eqn:E.
  - apply Qlt_bool_iff in E. repeat split.
    + intro K. exfalso. lra.
    + now apply Qlt_le_weak.
  - apply Qlt_bool_false_iff in E. repeat split.
    + intro K. exfalso. lra.
    + discriminate.
Qed.

(** ** Sample inputs *)

(** The sample threads are what the variant constructors build. *)
Lemma catalog_entries :
  ISOThread_from_mm 1 0.25 = Ok M1_025 /\
  ISOThread_from_mm 1 0.2 = Ok M1_02 /\
  ISOThread_from_mm 1.2 0.2 = Ok M1p2_02 /\
  ISOThread_from_mm 2 0.4 = Ok M2_04 /\
  ISOThread_from_mm 2 0.25 = Ok M2_025 /\
  NumberedUTSThread_from_number 0 80 = Ok N0_80.
Proof. repeat split. Qed.

Lemma small_output_generated : differentials small_catalog = Ok small_output.
Proof. vm_compute. reflexivity. Qed.

(** C2.  For two threads of different pitch, the constructor orders them
    ascending by (major diameter, minor diameter) into a smaller and a larger
    one; the effective pitch is the absolute difference of their pitches, and
    the effective density is its reciprocal. *)
Theorem effective_pitch_of_ordered_pair :
  forall a b : Thread,
    ~ pitch a == pitch b ->
    exists s l d,
      sorted Thread_lt [a; b] = [s; l] /\
      ((s, l) = (a, b) \/ (s, l) = (b, a)) /\
      Thread_le s l /\
      DifferentialThread_init (a, b) = Ok d /\
      effective_pitch d = Qabs (pitch s - pitch l) /\
      0 < effective_pitch d /\
      effective_tpi d = 1 / effective_pitch d.
Proof.
  intros a b H.
  destruct (DifferentialThread_init_total a b H) as [d Hd].
  destruct (DifferentialThread_init_Ok _ _ Hd)
    as [s [l [E [P [L [_ [Hp [Hz [Ht _]]]]]]]]].
  exists s, l, d. simpl in E, P.
  repeat split; auto.
  assert (K : 0 <= effective_pitch d) by (rewrite Hp; apply Qabs_nonneg).
  apply Qle_lt_or_eq in K as [K | K]; [exact K|].
  exfalso. apply Hz. now symmetry.
Qed.

Lemma effective_pitch_of_ordered_pair_witness :
  exists s l d,
    sorted Thread_lt [M2_04; N0_80] = [s; l] /\
    ((s, l) = (M2_04, N0_80) \/ (s, l) = (N0_80, M2_04)) /\
    Thread_le s l /\
    DifferentialThread_init (M2_04, N0_80) = Ok d /\
    effective_pitch d = Qabs (pitch s - pitch l) /\
    0 < effective_pitch d /\
    effective_tpi d = 1 / effective_pitch d.
Proof.
  apply (effective_pitch_of_ordered_pair M2_04 N0_80).
  intro H. vm_compute in H. discriminate H.
Defined.

(** C3.  Every constructed pair has a radial clearance equal to
    (minor diameter of the larger - major diameter of the smaller) / 2 when
    that is positive and to zero otherwise, hence never negative; a pair
    whose raw clearance is not positive is still constructed, as
    M1x0.25 with M1.2x0.2 shows. *)
Theorem radial_clearance_clamped :
  (forall (tp : Thread * Thread) (d : DifferentialThread),
      DifferentialThread_init tp = Ok d ->
      exists s l,
        sorted Thread_lt [fst tp; snd tp] = [s; l] /\
        Thread_le s l /\
        (0 < (minor_diameter l - major_diameter s) / 2 ->
         radial_clearance d = (minor_diameter l - major_diameter s) / 2) /\
        ((minor_diameter l - major_diameter s) / 2 <= 0 ->
         radial_clearance d == 0) /\
        0 <= radial_clearance d) /\
  (exists d,
      DifferentialThread_init (M1_025, M1p2_02) = Ok d /\
      sorted Thread_lt [M1_025; M1p2_02] = [M1_025; M1p2_02] /\
      (minor_diameter M1p2_02 - major_diameter M1_025) / 2 < 0 /\
      radial_clearance d == 0).
Proof.
  split.
  - intros tp d Hd.
    destruct (DifferentialThread_init_Ok _ _ Hd)
      as [s [l [E [_ [L [_ [_ [_ [_ Hr]]]]]]]]].
    exists s, l. rewrite Hr.
    destruct (clamp_spec ((minor_diameter l - major_diameter s) / 2))
      as [C1 [C2 C3]].
    repeat split; auto.
  - eexists. split; [vm_compute; reflexivity|].
    split; [reflexivity|]. split; reflexivity.
Qed.

Lemma radial_clearance_clamped_witness :
  exists s l,
    sorted Thread_lt [M1_025; M2_04] = [s; l] /\
    Thread_le s l /\
    (0 < (minor_diameter l - major_diameter s) / 2 ->
     radial_clearance (differential_of M1_025 M2_04 M1_025 M2_04)
     = (minor_diameter l - major_diameter s) / 2) /\
    ((minor_diameter l - major_diameter s) / 2 <= 0 ->
     radial_clearance (differential_of M1_025 M2_04 M1_025 M2_04) == 0) /\
    0 <= radial_clearance (differential_of M1_025 M2_04 M1_025 M2_04).
Proof.
  apply (proj1 radial_clearance_clamped (M1_025, M2_04)).
  reflexivity.
Defined.

(** ** Sorting *)

Section SortingFacts.
Context {A : Type} (lt : A -> A -> bool).

Lemma insert_perm (x : A) (l : list A) : Permutation (insert lt x l) (x :: l).
Proof.
  induction l as [|y r IH]; simpl.
  - reflexivity.
  - destruct (lt x y).
    + reflexivity.
    + rewrite IH. apply perm_swap.
Qed.

Lemma fold_insert_perm (l acc : list A) :
  Permutation (fold_left (fun acc x => insert lt x acc) l acc) (l ++ acc).
Proof.
  revert acc. induction l as [|x r IH]; intro acc; simpl.
  - reflexivity.
  - rewrite IH, insert_perm. symmetry. apply Permutation_middle.
Qed.

Lemma sorted_perm (l : list A) : Permutation (sorted lt l) l.
Proof.
  unfold sorted. rewrite fold_insert_perm. now rewrite app_nil_r.
Qed.

Hypothesis lt_asym : forall x y, lt x y = true -> lt y x = false.
Hypothesis precedes_trans :
  forall x y z, precedes lt x y -> precedes lt y z -> precedes lt x z.

Lemma insert_sorted (x : A) (l : list A) :
  StronglySorted (precedes lt) l -> StronglySorted (precedes lt) (insert lt x l).
Proof.
  induction 1 as [|y r Hr IH Hy]; simpl.
  - constructor; constructor.
  - destruct (lt x y) eqn:E.
    + constructor.
      * now constructor.
      * constructor; [now apply lt_asym|].
        eapply Forall_impl; [|exact Hy].
        intros z Hz. apply (precedes_trans x y z); [|exact Hz].
        now apply lt_asym.
    + constructor; [exact IH|].
      rewrite Forall_forall. intros z Hz.
      apply (Permutation_in _ (insert_perm x r)) in Hz.
      destruct Hz as [<- | Hz]; [exact E|].
      rewrite Forall_forall in Hy. now apply Hy.
Qed.

Lemma fold_insert_sorted (l acc : list A) :
  StronglySorted (precedes lt) acc ->
  StronglySorted (precedes lt) (fold_left (fun acc x => insert lt x acc) l acc).
Proof.
  revert acc. induction l as [|x r IH]; intros acc H; simpl.
  - exact H.
  - apply IH. now apply insert_sorted.
Qed.

Lemma sorted_sorted (l : list A) : StronglySorted (precedes lt) (sorted lt l).
Proof. apply fold_insert_sorted. constructor. Qed.
End SortingFacts.

Lemma StronglySorted_adjacent {A : Type} (R : A -> A -> Prop) (l : list A) :
  StronglySorted R l ->
  forall (i : nat) (x y : A),
    nth_error l i = Some x -> nth_error l (S i) = Some y -> R x y.
Proof.
  induction 1 as [|a r Hr IH Ha]; intros i x y Hx Hy.
  - destruct i; discriminate.
  - destruct i as [|i]; simpl in Hx, Hy.
    + injection Hx as <-. rewrite Forall_forall in Ha. apply Ha.
      destruct r; [discriminate|]. injection Hy as <-. now left.
    + now apply (IH i).
Qed.

(** ** Ordering of differentials *)

Lemma tuple_lt_true_iff (a b : Q * Q) :
  tuple_lt a b = true <->
  fst a < fst b \/ (fst a == fst b /\ snd a < snd b).
Proof.
  unfold tuple_lt.
  destruct (Qeq_bool (fst a) (fst b)) eqn:E1; simpl.
  - apply Qeq_bool_iff in E1.
    destruct (Qeq_bool (snd a) (snd b)) eqn:E2; simpl.
    + apply Qeq_bool_iff in E2. split; [discriminate|].
      intros [H | [_ H]]; exfalso; lra.
    + rewrite Qlt_bool_iff. split; [auto|].
      intros [H | [_ H]]; [exfalso; lra | exact H].
  - apply Qeq_bool_false_iff in E1. rewrite Qlt_bool_iff.
    split; [auto|]. intros [H | [H _]]; [exact H | contradiction].
Qed.

Lemma tuple_lt_false_iff (a b : Q * Q) :
  tuple_lt a b = false <->
  fst b < fst a \/ (fst a == fst b /\ snd b <= snd a).
Proof.
  rewrite <- not_true_iff_false, tuple_lt_true_iff. split.
  - intro H.
    destruct (Q_dec (fst a) (fst b)) as [[L | G] | E].
    + exfalso. apply H. now left.
    + now left.
    + right. split; [exact E|]. apply Qnot_lt_le. intro K. apply H. auto.
  - intros [H | [H1 H2]] [K | [K1 K2]]; lra.
Qed.

Lemma DifferentialThread_lt_asym (x y : DifferentialThread) :
  DifferentialThread_lt x y = true -> DifferentialThread_lt y x = false.
Proof.
  unfold DifferentialThread_lt.
  rewrite tuple_lt_true_iff, tuple_lt_false_iff. simpl.
  intros [H | [H1 H2]]; [now left|].
  right. split; [now symmetry | now apply Qlt_le_weak].
Qed.

Lemma DifferentialThread_precedes_trans (x y z : DifferentialThread) :
  precedes DifferentialThread_lt x y ->
  precedes DifferentialThread_lt y z ->
  precedes DifferentialThread_lt x z.
Proof.
  unfold precedes, DifferentialThread_lt.
  rewrite !tuple_lt_false_iff. simpl.
  intros [H | [H1 H2]] [K | [K1 K2]].
  - left. lra.
  - left. lra.
  - left. lra.
  - right. split; lra.
Qed.

Lemma precedes_effective_pitch (x y : DifferentialThread) :
  precedes DifferentialThread_lt x y ->
  effective_pitch x <= effective_pitch y.
Proof.
  unfold precedes, DifferentialThread_lt.
  rewrite tuple_lt_false_iff. simpl.
  intros [H | [H _]]; lra.
Qed.

(** ** Catalog generation *)

Lemma mapM_Ok {A B : Type} (f : A -> result B) (l : list A) :
  (forall x, In x l -> exists y, f x = Ok y) ->
  exists ys, mapM f l = Ok ys /\ Forall2 (fun x y => f x = Ok y) l ys.
Proof.
  induction l as [|x r IH]; intro H; simpl.
  - exists []. split; [reflexivity | constructor].
  - destruct (H x (or_introl eq_refl)) as [y Hy].
    destruct IH as [ys [E F]]; [intros z Hz; apply H; now right|].
    exists (y :: ys). rewrite Hy, E. split; [reflexivity|].
    now constructor.
Qed.

Lemma pitch_differs_iff (p : Thread * Thread) :
  pitch_differs p = true <-> ~ pitch (fst p) == pitch (snd p).
Proof.
  unfold pitch_differs. rewrite negb_true_iff. apply Qeq_bool_false_iff.
Qed.

(** The differentials built from a list of pairs of different pitch keep the
    pairs, in order. *)
Lemma constructed_pairs (l : list (Thread * Thread))
    (ds : list DifferentialThread) :
  Forall2 (fun tp d => DifferentialThread_init tp = Ok d) l ds ->
  map thread_pair ds = l.
Proof.
  induction 1 as [|tp d l ds H _ IH]; simpl.
  - reflexivity.
  - destruct (DifferentialThread_init_Ok _ _ H) as [_ [_ [_ [_ [_ [E _]]]]]].
    now rewrite E, IH.
Qed.

(** Generation never raises, and yields a sorted rearrangement of the
    differentials of the combinations that pass the filter. *)
Lemma differentials_Ok (threads : list Thread) :
  exists ds,
    differentials threads = Ok ds /\
    Permutation (map thread_pair ds)
                (filter pitch_differs (combinations2 threads)) /\
    StronglySorted (precedes DifferentialThread_lt) ds.
Proof.
  unfold differentials.
  destruct (mapM_Ok DifferentialThread_init
              (filter pitch_differs (combinations2 threads)))
    as [ys [E F]].
  - intros [a b] H. apply filter_In in H as [_ H].
    apply pitch_differs_iff in H. now apply DifferentialThread_init_total.
  - rewrite E. simpl. eexists. split; [reflexivity|]. split.
    + rewrite <- (constructed_pairs _ _ F).
      apply Permutation_map. apply sorted_perm.
    + apply sorted_sorted.
      * exact DifferentialThread_lt_asym.
      * exact DifferentialThread_precedes_trans.
Qed.

(** C5.  Generation returns a sequence of differentials, rendered one
    entry each in the same order, and in that sequence every differential
    has an effective pitch at most that of the next one. *)
Theorem output_sorted_by_effective_pitch :
  forall (fmt : Q -> string) (fixed : nat -> Q -> string)
         (repr : Thread -> string) (threads : list Thread),
    (exists ds,
        differentials threads = Ok ds /\
        json_entries fmt fixed repr threads =
        Ok (map (entry_of fmt fixed repr) ds)) /\
    (forall (ds : list DifferentialThread) (i : nat)
            (d1 d2 : DifferentialThread),
        differentials threads = Ok ds ->
        nth_error ds i = Some d1 -> nth_error ds (S i) = Some d2 ->
        effective_pitch d1 <= effective_pitch d2).
Proof.
  intros fmt fixed repr threads.
  destruct (differentials_Ok threads) as [ds [E [_ S]]].
  split.
  - exists ds. split; [exact E|]. unfold json_entries. now rewrite E.
  - intros ds' i d1 d2 E' H1 H2.
    rewrite E in E'. injection E' as <-.
    apply precedes_effective_pitch.
    exact (StronglySorted_adjacent _ _ S i d1 d2 H1 H2).
Qed.

(** *** Combinations *)

Lemma distinctb_NoDup {A : Type} (same : A -> A -> bool) (l : list A) :
  (forall x, same x x = true) -> distinctb same l = true -> NoDup l.
Proof.
  intro R. induction l as [|x r IH]; simpl; intro H.
  - constructor.
  - apply andb_prop in H as [H1 H2]. constructor; [|now apply IH].
    intro K. apply negb_true_iff in H1.
    assert (E : existsb (same x) r = true).
    { apply existsb_exists. exists x. split; [exact K | apply R]. }
    congruence.
Qed.

Lemma same_thread_refl (t : Thread) : same_thread t t = true.
Proof.
  unfold same_thread. rewrite !Qeq_bool_refl.
  now destruct (class_of t).
Qed.

Lemma index_pairs_In (n i j : nat) :
  In (i, j) (index_pairs n) <-> (i < j < n)%nat.
Proof.
  revert i j. induction n as [|m IH]; intros i j; simpl.
  - split; [tauto | lia].
  - rewrite in_app_iff, !in_map_iff. split.
    + intros [[k [E H]] | [[a b] [E H]]].
      * injection E as <- <-. apply in_seq in H. lia.
      * simpl in E. injection E as <- <-. apply IH in H. lia.
    + intros [H1 H2]. destruct i as [|i].
      * left. destruct j as [|j]; [lia|]. exists j.
        split; [reflexivity|]. apply in_seq. lia.
      * right. destruct j as [|j]; [lia|]. exists (i, j).
        split; [reflexivity|]. apply IH. lia.
Qed.

Lemma NoDup_map_injective {A B : Type} (f : A -> B) (l : list A) :
  (forall x y, f x = f y -> x = y) -> NoDup l -> NoDup (map f l).
Proof.
  intros Hf Hl. apply NoDup_map_NoDup_ForallPairs; [|exact Hl].
  intros x y _ _. apply Hf.
Qed.

Lemma index_pairs_NoDup (n : nat) : NoDup (index_pairs n).
Proof.
  induction n as [|m IH]; simpl.
  - constructor.
  - apply NoDup_app.
    + apply NoDup_map_injective; [|apply seq_NoDup].
      intros a b E. now injection E.
    + apply NoDup_map_injective; [|exact IH].
      intros [a b] [c d] E. simpl in E. now injection E as -> ->.
    + intros [a b] H1 H2.
      apply in_map_iff in H1 as [k [E1 _]].
      apply in_map_iff in H2 as [[c d] [E2 _]].
      simpl in E2. congruence.
Qed.

Lemma map_nth_seq {A : Type} (l : list A) (dflt : A) :
  map (fun j => nth j l dflt) (seq 0 (length l)) = l.
Proof.
  induction l as [|x r IH]; simpl.
  - reflexivity.
  - f_equal. rewrite <- seq_shift, map_map. exact IH.
Qed.

Lemma combinations2_index {A : Type} (l : list A) (dflt : A) :
  combinations2 l = map (pair_at l dflt) (index_pairs (length l)).
Proof.
  induction l as [|x r IH]; simpl.
  - reflexivity.
  - rewrite map_app, !map_map. f_equal.
    + unfold pair_at. simpl.
      rewrite <- (map_map (fun j => nth j r dflt) (pair x)).
      f_equal. symmetry. apply map_nth_seq.
    + rewrite IH. apply map_ext. now intros [i j].
Qed.

Lemma combinations2_In {A : Type} (l : list A) (a b : A) :
  In (a, b) (combinations2 l) -> In a l /\ In b l.
Proof.
  induction l as [|x r IH]; simpl; [tauto|].
  rewrite in_app_iff, in_map_iff.
  intros [[y [E H]] | H].
  - injection E as <- <-. auto.
  - apply IH in H. tauto.
Qed.

(** Over a list without repeated elements, the combinations are distinct as
    values too, none pairs an element with itself, and none is another one
    reversed. *)
Lemma combinations2_NoDup {A : Type} (l : list A) :
  NoDup l ->
  NoDup (combinations2 l) /\
  forall a b, In (a, b) (combinations2 l) ->
              a <> b /\ ~ In (b, a) (combinations2 l).
Proof.
  induction 1 as [|x r Hx Hr [IH1 IH2]]; simpl.
  - split; [constructor | tauto].
  - split.
    + apply NoDup_app.
      * apply NoDup_map_injective; [|exact Hr].
        intros a b E. now injection E.
      * exact IH1.
      * intros [a b] H1 H2. apply in_map_iff in H1 as [y [E _]].
        injection E as <- <-. apply combinations2_In in H2. tauto.
    + intros a b. rewrite !in_app_iff, !in_map_iff.
      intros [[y [E H]] | H].
      * injection E as <- <-. split; [congruence|].
        intros [[z [E' H']] | H'].
        -- injection E' as <- <-. contradiction.
        -- apply combinations2_In in H'. tauto.
      * destruct (IH2 a b H) as [N1 N2]. split; [exact N1|].
        intros [[z [E' H']] | H']; [|contradiction].
        injection E' as <- <-. apply combinations2_In in H. tauto.
Qed.

(** C6.  Generation returns, and the differentials it returns are, up to
    order, exactly the pairs of threads at the positions [i < j] whose
    pitches differ, one differential for each such pair of positions; no
    generated pair has equal pitches; and when the sequence has no repeated
    thread, no pair of threads is generated twice, in either order, and no
    thread is paired with itself. *)
Theorem one_differential_per_combination :
  forall (threads : list Thread) (dflt : Thread),
    (NoDup (index_pairs (length threads)) /\
     forall i j, In (i, j) (index_pairs (length threads)) <->
                 (i < j < length threads)%nat) /\
    (exists ds, differentials threads = Ok ds) /\
    (forall ds,
        differentials threads = Ok ds ->
        Permutation
          (map thread_pair ds)
          (map (pair_at threads dflt)
             (filter (fun ij => pitch_differs (pair_at threads dflt ij))
                (index_pairs (length threads)))) /\
        (forall d,
            In d ds ->
            ~ pitch (fst (thread_pair d)) == pitch (snd (thread_pair d))) /\
        (NoDup threads ->
         NoDup (map thread_pair ds) /\
         forall a b, In (a, b) (map thread_pair ds) ->
                     a <> b /\ ~ In (b, a) (map thread_pair ds))).
Proof.
  intros threads dflt. split; [|split].
  - split; [apply index_pairs_NoDup|]. intros i j. apply index_pairs_In.
  - destruct (differentials_Ok threads) as [ds [E _]]. now exists ds.
  - intros ds' E'. destruct (differentials_Ok threads) as [ds [E [P _]]].
    rewrite E in E'. injection E' as <-. split; [|split].
    + rewrite P, (combinations2_index threads dflt).
      now rewrite filter_map_swap.
    + intros d Hd. apply pitch_differs_iff.
      apply (in_map thread_pair) in Hd.
      apply (Permutation_in _ P) in Hd. now apply filter_In in Hd.
    + intro N. destruct (combinations2_NoDup threads N) as [N1 N2]. split.
      * apply (Permutation_NoDup (Permutation_sym P)).
        now apply NoDup_filter.
      * intros a b H. apply (Permutation_in _ P) in H.
        apply filter_In in H as [H _]. destruct (N2 a b H) as [K1 K2].
        split; [exact K1|]. intro H'. apply K2.
        apply (Permutation_in _ P) in H'. now apply filter_In in H'.
Qed.

Lemma combinations2_positions {A : Type} (l : list A) (a b : A) :
  In (a, b) (combinations2 l) ->
  exists i j, (i < j)%nat /\ nth_error l i = Some a /\ nth_error l j = Some b.
Proof.
  induction l as [|x r IH]; simpl; [tauto|].
  rewrite in_app_iff, in_map_iff.
  intros [[y [E H]] | H].
  - injection E as <- <-. apply In_nth_error in H as [j Hj].
    exists O, (S j). split; [lia|]. split; [reflexivity | exact Hj].
  - destruct (IH H) as [i [j [L [Hi Hj]]]].
    exists (S i), (S j). split; [lia|]. split; assumption.
Qed.

Lemma output_sorted_by_effective_pitch_witness :
  exists d1 d2,
    nth_error small_output 0 = Some d1 /\
    nth_error small_output 1 = Some d2 /\
    effective_pitch d1 <= effective_pitch d2.
Proof.
  eexists. eexists. split; [reflexivity|]. split; [reflexivity|].
  apply (proj2 (output_sorted_by_effective_pitch
                  no_fmt no_fixed no_repr small_catalog)
           small_output 0%nat).
  - exact small_output_generated.
  - reflexivity.
  - reflexivity.
Defined.

Lemma small_catalog_NoDup : NoDup small_catalog.
Proof.
  apply (distinctb_NoDup same_thread); [exact same_thread_refl|].
  reflexivity.
Qed.

Lemma one_differential_per_combination_witness :
  Permutation
    (map thread_pair small_output)
    (map (pair_at small_catalog M1_025)
       (filter (fun ij => pitch_differs (pair_at small_catalog M1_025 ij))
          (index_pairs (length small_catalog)))) /\
  NoDup (map thread_pair small_output).
Proof.
  destruct (proj2 (proj2 (one_differential_per_combination
                            small_catalog M1_025))
              small_output small_output_generated) as [P [_ N]].
  split; [exact P|]. exact (proj1 (N small_catalog_NoDup)).
Defined.

(** C10.  One differential is less than another exactly when its effective
    pitch is smaller, or the effective pitches are equal and its radial
    clearance is smaller; the thread pair and the effective density play no
    part; and of two differentials with equal effective pitch, [sorted] puts
    the one with the smaller radial clearance first. *)
Theorem DifferentialThread_lt_lexicographic :
  (forall d1 d2 : DifferentialThread,
      DifferentialThread_lt d1 d2 = true <->
      effective_pitch d1 < effective_pitch d2 \/
      (effective_pitch d1 == effective_pitch d2 /\
       radial_clearance d1 < radial_clearance d2)) /\
  (forall (tp1 tp1' tp2 tp2' : Thread * Thread)
          (e1 e2 t1 t1' t2 t2' r1 r2 : Q),
      DifferentialThread_lt (mkDifferentialThread tp1 e1 t1 r1)
                            (mkDifferentialThread tp2 e2 t2 r2) =
      DifferentialThread_lt (mkDifferentialThread tp1' e1 t1' r1)
                            (mkDifferentialThread tp2' e2 t2' r2)) /\
  (forall d1 d2 : DifferentialThread,
      effective_pitch d1 == effective_pitch d2 ->
      radial_clearance d1 < radial_clearance d2 ->
      DifferentialThread_lt d1 d2 = true /\
      sorted DifferentialThread_lt [d2; d1] = [d1; d2] /\
      sorted DifferentialThread_lt [d1; d2] = [d1; d2]).
Proof.
  split; [|split].
  - intros d1 d2. unfold DifferentialThread_lt.
    now rewrite tuple_lt_true_iff.
  - reflexivity.
  - intros d1 d2 He Hr.
    assert (L : DifferentialThread_lt d1 d2 = true).
    { unfold DifferentialThread_lt. apply tuple_lt_true_iff. simpl. auto. }
    split; [exact L|]. rewrite !sorted_two, L.
    now rewrite (DifferentialThread_lt_asym _ _ L).
Qed.

Lemma DifferentialThread_lt_lexicographic_witness :
  DifferentialThread_init (M1_025, M1p2_02)
    = Ok (differential_of M1_025 M1p2_02 M1_025 M1p2_02) /\
  DifferentialThread_init (M1_02, M2_025)
    = Ok (differential_of M1_02 M2_025 M1_02 M2_025) /\
  DifferentialThread_lt (differential_of M1_025 M1p2_02 M1_025 M1p2_02)
                        (differential_of M1_02 M2_025 M1_02 M2_025) = true /\
  sorted DifferentialThread_lt
    [differential_of M1_02 M2_025 M1_02 M2_025;
     differential_of M1_025 M1p2_02 M1_025 M1p2_02]
  = [differential_of M1_025 M1p2_02 M1_025 M1p2_02;
     differential_of M1_02 M2_025 M1_02 M2_025].
Proof.
  split; [reflexivity|]. split; [reflexivity|].
  destruct (proj2 (proj2 DifferentialThread_lt_lexicographic)
              (differential_of M1_025 M1p2_02 M1_025 M1p2_02)
              (differential_of M1_02 M2_025 M1_02 M2_025))
    as [L [S _]]; [reflexivity | reflexivity |].
  split; [exact L | exact S].
Defined.

(** C8.  Each entry's [threads] field holds the display strings of a pair of
    threads in the order of their positions in the input, first the earlier
    one, and that need not be the order the constructor sorts them in: for
    the input M2x0.4, #0-80 the entry lists M2x0.4 first, while the sort
    puts #0-80, the smaller, first. *)
Theorem entry_threads_in_enumeration_order :
  forall (fmt : Q -> string) (fixed : nat -> Q -> string)
         (repr : Thread -> string),
    (forall (threads : list Thread) (es : list entry) (e : entry),
        json_entries fmt fixed repr threads = Ok es ->
        In e es ->
        exists i j a b,
          (i < j)%nat /\
          nth_error threads i = Some a /\ nth_error threads j = Some b /\
          entry_threads e = [Thread_str fmt repr a; Thread_str fmt repr b]) /\
    (exists e,
        json_entries fmt fixed repr [M2_04; N0_80] = Ok [e] /\
        entry_threads e = [Thread_str fmt repr M2_04; Thread_str fmt repr N0_80] /\
        sorted Thread_lt [M2_04; N0_80] = [N0_80; M2_04] /\
        major_diameter N0_80 < major_diameter M2_04).
Proof.
  intros fmt fixed repr. split.
  - intros threads es e H He. unfold json_entries in H.
    destruct (differentials_Ok threads) as [ds [E [P _]]].
    rewrite E in H. simpl in H. injection H as <-.
    apply in_map_iff in He as [d [<- Hd]].
    apply (in_map thread_pair) in Hd.
    apply (Permutation_in _ P) in Hd. apply filter_In in Hd as [Hd _].
    destruct (thread_pair d) as [a b] eqn:T.
    destruct (combinations2_positions _ _ _ Hd) as [i [j [L [Hi Hj]]]].
    exists i, j, a, b. repeat split; try assumption.
    unfold entry_of. simpl. now rewrite T.
  - eexists. split; [vm_compute; reflexivity|].
    split; [reflexivity|]. split; reflexivity.
Qed.

Lemma entry_threads_in_enumeration_order_witness :
  exists i j a b,
    (i < j)%nat /\
    nth_error [M2_04; N0_80] i = Some a /\
    nth_error [M2_04; N0_80] j = Some b /\
    entry_threads
      (entry_of no_fmt no_fixed no_repr
         (differential_of M2_04 N0_80 N0_80 M2_04))
    = [Thread_str no_fmt no_repr a; Thread_str no_fmt no_repr b].
Proof.
  apply (proj1 (entry_threads_in_enumeration_order
                  no_fmt no_fixed no_repr)
           [M2_04; N0_80]
           [entry_of no_fmt no_fixed no_repr
              (differential_of M2_04 N0_80 N0_80 M2_04)]).
  - reflexivity.
  - now left.
Defined.

(** ** The catalog *)

(** Every entry of the catalog is built without an exception, and no two
    entries have the same class, major diameter and pitch: the catalog has
    no repeated thread. *)
Lemma THREADS_built :
  exists l, THREADS = Ok l /\ length l = 123%nat /\ NoDup l.
Proof.
  destruct THREADS as [l|e] eqn:E; [|vm_compute in E; discriminate E].
  exists l. split; [reflexivity|].
  assert (H : length l = 123%nat /\ distinctb same_thread l = true).
  { assert (K : match THREADS with
                | Ok l => ((length l =? 123)%nat && distinctb same_thread l)
                | Raise _ => false
                end = true) by (vm_compute; reflexivity).
    rewrite E in K. apply andb_prop in K as [K1 K2].
    split; [now apply Nat.eqb_eq | exact K2]. }
  destruct H as [H1 H2]. split; [exact H1|].
  exact (distinctb_NoDup same_thread l same_thread_refl H2).
Qed.

(** Combinations are by position: a thread that occurs twice in the input is
    paired with another thread once per occurrence. *)
Lemma repeated_thread_paired_per_position :
  exists d1 d2,
    differentials repeating_catalog = Ok [d1; d2] /\
    thread_pair d1 = (M1_025, M1p2_02) /\
    thread_pair d2 = (M1p2_02, M1_025).
Proof. eexists. eexists. split; [vm_compute; reflexivity|]. split; reflexivity. Qed.

(** * Further properties *)

(** ** Thread construction, whatever the inputs *)

Lemma built_relations (t : Thread) :
  built t ->
  minor_diameter t = major_diameter t - (5 * sqrt3 * pitch t) / 8 /\
  ~ pitch t == 0 /\ pitch t * tpi t == 1.
Proof.
  intros [c [n [D [p [d H]]]]].
  destruct (Thread_init_Ok _ _ _ _ _ _ H) as [_ [HD [_ [Hm [Hp Ht]]]]].
  rewrite HD. auto.
Qed.

(** X1.  Whenever construction succeeds, also on a negative or doubly
    specified input, the stored pitch is not zero and pitch times density is
    one; the minor diameter is below the major diameter exactly when the
    pitch is positive, and above it exactly when the pitch is negative. *)
Theorem Thread_init_geometry :
  forall (c : cls) (n : option Z) (D : Q) (p d : option Q) (t : Thread),
    Thread_init c n D p d = Ok t ->
    ~ pitch t == 0 /\
    pitch t * tpi t == 1 /\
    (minor_diameter t < major_diameter t <-> 0 < pitch t) /\
    (major_diameter t < minor_diameter t <-> pitch t < 0).
Proof.
  intros c n D p d t H.
  destruct (Thread_init_Ok _ _ _ _ _ _ H) as [_ [HD [_ [Hm [Hp Ht]]]]].
  split; [exact Hp|]. split; [exact Ht|].
  rewrite Hm, HD. generalize (pitch t). intro x.
  unfold sqrt3, Qdiv. change (/ 8) with (1 # 8).
  split; split; intro K; lra.
Qed.

Lemma Thread_init_geometry_witness :
  ~ pitch (mkThread cls_Thread 1 (1 - (5 * sqrt3 * -0.25) / 8) (-0.25)
             (1 / -0.25) None) == 0 /\
  -0.25 * (1 / -0.25) == 1 /\
  (1 - (5 * sqrt3 * -0.25) / 8 < 1 <-> 0 < -0.25) /\
  (1 < 1 - (5 * sqrt3 * -0.25) / 8 <-> -0.25 < 0).
Proof.
  apply (Thread_init_geometry cls_Thread None 1 (Some (-0.25)) None).
  reflexivity.
Defined.

(** ** The order on threads *)

Lemma tuple_gt_lt (a b : Q * Q) : tuple_gt a b = tuple_lt b a.
Proof.
  unfold tuple_gt, tuple_lt.
  now rewrite (Qeq_bool_comm (fst a)), (Qeq_bool_comm (snd a)).
Qed.

Lemma Thread_gt_true_iff (a b : Thread) :
  Thread_gt a b = true <->
  major_diameter b < major_diameter a \/
  (major_diameter b == major_diameter a /\
   minor_diameter b < minor_diameter a).
Proof.
  unfold Thread_gt. rewrite tuple_gt_lt, tuple_lt_true_iff. reflexivity.
Qed.

Lemma Thread_gt_false_iff (a b : Thread) :
  Thread_gt a b = false <-> Thread_le a b.
Proof.
  unfold Thread_gt, Thread_le. rewrite tuple_gt_lt, tuple_lt_false_iff.
  simpl. split; (intros [H | [H1 H2]]; [now left|]);
    right; (split; [now symmetry | exact H2]).
Qed.

Lemma Thread_gt_neither (a b : Thread) :
  Thread_gt a b = false -> Thread_gt b a = false ->
  major_diameter a == major_diameter b /\
  minor_diameter a == minor_diameter b.
Proof.
  rewrite !Thread_gt_false_iff. unfold Thread_le.
  intros [H | [H1 H2]] [K | [K1 K2]]; try (exfalso; lra).
  split; [exact H1 | lra].
Qed.

(** X2.  [__gt__] is a strict order on the pairs (major diameter, minor
    diameter): no thread is greater than itself, two threads are never each
    greater than the other, the relation is transitive, and two threads of
    which neither is greater have equal major and equal minor diameters. *)
Theorem Thread_gt_strict_order :
  (forall a : Thread, Thread_gt a a = false) /\
  (forall a b : Thread, Thread_gt a b = true -> Thread_gt b a = false) /\
  (forall a b c : Thread,
      Thread_gt a b = true -> Thread_gt b c = true -> Thread_gt a c = true) /\
  (forall a b : Thread,
      Thread_gt a b = false -> Thread_gt b a = false ->
      major_diameter a == major_diameter b /\
      minor_diameter a == minor_diameter b).
Proof.
  split; [|split; [|split]].
  - intro a. apply Thread_gt_false_iff. right.
    split; [reflexivity | apply Qle_refl].
  - intros a b. rewrite Thread_gt_true_iff, Thread_gt_false_iff.
    unfold Thread_le. intros [H | [H1 H2]].
    + now left.
    + right. split; [exact H1 | now apply Qlt_le_weak].
  - intros a b c. rewrite !Thread_gt_true_iff.
    intros [H | [H1 H2]] [K | [K1 K2]].
    + left. lra.
    + left. lra.
    + left. lra.
    + right. split; lra.
  - exact Thread_gt_neither.
Qed.

Lemma Thread_gt_strict_order_witness :
  Thread_gt M2_04 N0_80 = true /\ Thread_gt N0_80 M1_025 = true /\
  Thread_gt M2_04 M1_025 = true /\ Thread_gt N0_80 M2_04 = false.
Proof.
  assert (H1 : Thread_gt M2_04 N0_80 = true) by reflexivity.
  assert (H2 : Thread_gt N0_80 M1_025 = true) by reflexivity.
  split; [exact H1|]. split; [exact H2|]. split.
  - exact (proj1 (proj2 (proj2 Thread_gt_strict_order)) _ _ _ H1 H2).
  - exact (proj1 (proj2 Thread_gt_strict_order) _ _ H1).
Defined.

Lemma built_same_diameters (a b : Thread) :
  built a -> built b ->
  major_diameter a == major_diameter b ->
  minor_diameter a == minor_diameter b ->
  pitch a == pitch b /\ tpi a == tpi b.
Proof.
  intros Ha Hb HM Hm.
  destruct (built_relations a Ha) as [Ea [Na Ta]].
  destruct (built_relations b Hb) as [Eb [Nb Tb]].
  rewrite Ea, Eb in Hm.
  assert (P : pitch a == pitch b).
  { revert Hm. unfold sqrt3, Qdiv. change (/ 8) with (1 # 8).
    generalize (pitch a) (pitch b). intros x y Hm. lra. }
  split; [exact P|].
  setoid_replace (tpi a) with (tpi a * (pitch b * tpi b))
    by (rewrite Tb; ring).
  rewrite <- P.
  setoid_replace (tpi a * (pitch a * tpi b)) with ((pitch a * tpi a) * tpi b)
    by ring.
  rewrite Ta. ring.
Qed.


Lemma quarter_20_built :
  UTSThread_init (inch (1 # 4)) (per_inch 20) = Ok U_quarter_20 /\
  FractionalUTSThread_from_fraction 1 4 20 = Ok F_quarter_20.
Proof. split; reflexivity. Qed.



(** X4.  Of two constructed threads with the same major diameter, the
    greater one is the one with the finer pitch. *)
Theorem finer_pitch_is_greater :
  forall a b : Thread,
    built a -> built b ->
    major_diameter a == major_diameter b ->
    (Thread_gt a b = true <-> pitch a < pitch b).
Proof.
  intros a b Ha Hb HM.
  destruct (built_relations a Ha) as [Ea _].
  destruct (built_relations b Hb) as [Eb _].
  rewrite Thread_gt_true_iff, Ea, Eb.
  revert HM. generalize (major_diameter a) (major_diameter b).
  generalize (pitch a) (pitch b). intros x y A B HM.
  unfold sqrt3, Qdiv. change (/ 8) with (1 # 8).
  split.
  - intros [H | [_ H]]; lra.
  - intro H. right. split; lra.
Qed.

Lemma finer_pitch_is_greater_witness :
  Thread_gt M1_02 M1_025 = true <-> pitch M1_02 < pitch M1_025.
Proof.
  apply (finer_pitch_is_greater M1_02 M1_025).
  - exists cls_ISOThread, None, 1, (Some 0.2), None. reflexivity.
  - exists cls_ISOThread, None, 1, (Some 0.25), None. reflexivity.
  - reflexivity.
Defined.

(** ** Differential pairs, whatever the threads *)

(** X5.  Constructing a differential raises exactly when the two pitches
    are equal, and the exception is then [ZeroDivisionError]; on every other
    pair it returns. *)
Theorem DifferentialThread_init_raises_iff :
  forall a b : Thread,
    (DifferentialThread_init (a, b) = Raise ZeroDivisionError <->
     pitch a == pitch b) /\
    (forall e, DifferentialThread_init (a, b) = Raise e ->
               e = ZeroDivisionError) /\
    (~ pitch a == pitch b -> exists d, DifferentialThread_init (a, b) = Ok d).
Proof.
  intros a b.
  destruct (Qeq_dec (pitch a) (pitch b)) as [E | N].
  - rewrite (DifferentialThread_init_equal_pitch a b E).
    split; [tauto|]. split; [congruence | contradiction].
  - destruct (DifferentialThread_init_total a b N) as [d Hd]. rewrite Hd.
    split; [split; [discriminate | contradiction]|].
    split; [discriminate|]. intros _. now exists d.
Qed.

Lemma DifferentialThread_init_raises_iff_witness :
  exists d, DifferentialThread_init (M1_025, M2_04) = Ok d.
Proof.
  apply (proj2 (proj2 (DifferentialThread_init_raises_iff M1_025 M2_04))).
  intro H. vm_compute in H. discriminate H.
Defined.

Lemma Qabs_diff_sym (x y : Q) : Qabs (x - y) == Qabs (y - x).
Proof.
  setoid_replace (y - x) with (- (x - y)) by ring.
  now rewrite Qabs_opp.
Qed.

Lemma Qlt_bool_compat (x y : Q) : x == y -> Qlt_bool 0 x = Qlt_bool 0 y.
Proof.
  intro E. destruct (Qlt_bool 0 y) eqn:K.
  - apply Qlt_bool_iff. apply Qlt_bool_iff in K. now rewrite E.
  - apply Qlt_bool_false_iff. apply Qlt_bool_false_iff in K. now rewrite E.
Qed.

Lemma clamp_compat (x y : Q) : x == y -> clamp x == clamp y.
Proof.
  intro E. unfold clamp. rewrite (Qlt_bool_compat x y E).
  destruct (Qlt_bool 0 y); [exact E | reflexivity].
Qed.

(** X6.  The order of the two threads in the pair does not matter to what
    is computed: the differential of [(b, a)] has the same effective pitch,
    effective density and radial clearance as that of [(a, b)], and only
    records the pair the other way round. *)
Theorem DifferentialThread_init_swap :
  forall (a b : Thread) (d : DifferentialThread),
    DifferentialThread_init (a, b) = Ok d ->
    exists d',
      DifferentialThread_init (b, a) = Ok d' /\
      thread_pair d' = (b, a) /\
      effective_pitch d' == effective_pitch d /\
      effective_tpi d' == effective_tpi d /\
      radial_clearance d' == radial_clearance d.
Proof.
  intros a b d Hd.
  destruct (DifferentialThread_init_Ok _ _ Hd)
    as [s [l [_ [P [L [_ [Hp [Hz [Ht Hr]]]]]]]]].
  simpl in P.
  assert (N : ~ pitch b == pitch a).
  { intro E. apply Hz. rewrite Hp. apply Qabs_zero_iff.
    destruct P as [P | P]; injection P as -> ->; lra. }
  destruct (DifferentialThread_init_total b a N) as [d' Hd'].
  exists d'. split; [exact Hd'|].
  destruct (DifferentialThread_init_Ok _ _ Hd')
    as [s' [l' [_ [P' [L' [Hq [Hp' [_ [Ht' Hr']]]]]]]]].
  simpl in P'. split; [exact Hq|].
  assert (K : effective_pitch d' == effective_pitch d /\
              (minor_diameter l' - major_diameter s') / 2 ==
              (minor_diameter l - major_diameter s) / 2).
  { rewrite Hp, Hp'.
    destruct P as [P | P]; injection P as -> ->;
      destruct P' as [P' | P']; injection P' as -> ->.
    - unfold Thread_le in L, L'. split; [apply Qabs_diff_sym|].
      destruct L as [L | [L1 L2]]; destruct L' as [L' | [L1' L2']];
        try (exfalso; lra).
      unfold Qdiv. change (/ 2) with (1 # 2). lra.
    - split; reflexivity.
    - split; reflexivity.
    - unfold Thread_le in L, L'. split; [apply Qabs_diff_sym|].
      destruct L as [L | [L1 L2]]; destruct L' as [L' | [L1' L2']];
        try (exfalso; lra).
      unfold Qdiv. change (/ 2) with (1 # 2). lra. }
  destruct K as [K1 K2]. split; [exact K1|]. split.
  - rewrite Ht, Ht'. now rewrite K1.
  - rewrite Hr, Hr'. now apply clamp_compat.
Qed.

Lemma DifferentialThread_init_swap_witness :
  exists d',
    DifferentialThread_init (N0_80, M2_04) = Ok d' /\
    thread_pair d' = (N0_80, M2_04) /\
    effective_pitch d'
      == effective_pitch (differential_of M2_04 N0_80 N0_80 M2_04) /\
    effective_tpi d'
      == effective_tpi (differential_of M2_04 N0_80 N0_80 M2_04) /\
    radial_clearance d'
      == radial_clearance (differential_of M2_04 N0_80 N0_80 M2_04).
Proof.
  apply (DifferentialThread_init_swap M2_04 N0_80). reflexivity.
Defined.

Lemma Qabs_max_min (x y : Q) : Qabs (x - y) == Qmax x y - Qmin x y.
Proof.
  destruct (Q.max_spec x y) as [[H1 H2] | [H1 H2]];
    destruct (Q.min_spec x y) as [[K1 K2] | [K1 K2]];
    rewrite H2, K2; apply Qabs_case; intro; lra.
Qed.

(** X7.  Every constructed differential has a positive effective pitch and
    a positive effective density whose product is one; the effective pitch is
    the coarser of the two pitches minus the finer; and when both pitches
    are positive it is finer than the coarser of the two. *)
Theorem differential_is_finer :
  forall (a b : Thread) (d : DifferentialThread),
    DifferentialThread_init (a, b) = Ok d ->
    0 < effective_pitch d /\
    0 < effective_tpi d /\
    effective_pitch d * effective_tpi d == 1 /\
    effective_pitch d == Qmax (pitch a) (pitch b) - Qmin (pitch a) (pitch b) /\
    (0 < pitch a -> 0 < pitch b ->
     effective_pitch d < Qmax (pitch a) (pitch b)).
Proof.
  intros a b d Hd.
  destruct (DifferentialThread_init_Ok _ _ Hd)
    as [s [l [_ [P [_ [_ [Hp [Hz [Ht _]]]]]]]]].
  simpl in P.
  assert (Pos : 0 < effective_pitch d).
  { assert (K : 0 <= effective_pitch d) by (rewrite Hp; apply Qabs_nonneg).
    apply Qle_lt_or_eq in K as [K | K]; [exact K|].
    exfalso. apply Hz. now symmetry. }
  assert (E : effective_pitch d
              == Qmax (pitch a) (pitch b) - Qmin (pitch a) (pitch b)).
  { rewrite Hp. destruct P as [P | P]; injection P as -> ->.
    - apply Qabs_max_min.
    - rewrite Qabs_diff_sym. apply Qabs_max_min. }
  split; [exact Pos|]. split; [|split; [|split]].
  - rewrite Ht. unfold Qdiv. rewrite Qmult_1_l.
    now apply Qinv_lt_0_compat.
  - rewrite Ht. field. exact Hz.
  - exact E.
  - intros Ha Hb. rewrite E.
    assert (M : 0 < Qmin (pitch a) (pitch b)).
    { destruct (Q.min_spec (pitch a) (pitch b)) as [[_ K] | [_ K]];
        now rewrite K. }
    lra.
Qed.

Lemma differential_is_finer_witness :
  effective_pitch (differential_of M1_025 M1p2_02 M1_025 M1p2_02)
  < Qmax (pitch M1_025) (pitch M1p2_02).
Proof.
  apply (differential_is_finer M1_025 M1p2_02
           (differential_of M1_025 M1p2_02 M1_025 M1p2_02));
    reflexivity.
Defined.

(** X8.  Two constructed threads of positive pitch with the same major
    diameter leave no radial clearance: their differential, if the pitches
    differ, has radial clearance zero. *)
Theorem same_major_no_clearance :
  forall a b : Thread,
    built a -> built b ->
    0 < pitch a -> 0 < pitch b ->
    major_diameter a == major_diameter b ->
    ~ pitch a == pitch b ->
    exists d, DifferentialThread_init (a, b) = Ok d /\
              radial_clearance d == 0.
Proof.
  intros a b Ha Hb Pa Pb HM N.
  destruct (DifferentialThread_init_total a b N) as [d Hd].
  exists d. split; [exact Hd|].
  destruct (DifferentialThread_init_Ok _ _ Hd)
    as [s [l [_ [P [_ [_ [_ [_ [_ Hr]]]]]]]]].
  simpl in P. rewrite Hr. apply clamp_spec.
  destruct (built_relations a Ha) as [Ea _].
  destruct (built_relations b Hb) as [Eb _].
  assert (Ka : minor_diameter a < major_diameter a).
  { rewrite Ea. revert Pa. generalize (pitch a) (major_diameter a).
    intros x y Pa. unfold sqrt3, Qdiv. change (/ 8) with (1 # 8). lra. }
  assert (Kb : minor_diameter b < major_diameter b).
  { rewrite Eb. revert Pb. generalize (pitch b) (major_diameter b).
    intros x y Pb. unfold sqrt3, Qdiv. change (/ 8) with (1 # 8). lra. }
  unfold Qdiv. change (/ 2) with (1 # 2).
  destruct P as [P | P]; injection P as -> ->; lra.
Qed.

Lemma same_major_no_clearance_witness :
  exists d, DifferentialThread_init (M1_025, M1_02) = Ok d /\
            radial_clearance d == 0.
Proof.
  apply (same_major_no_clearance M1_025 M1_02).
  - exists cls_ISOThread, None, 1, (Some 0.25), None. reflexivity.
  - exists cls_ISOThread, None, 1, (Some 0.2), None. reflexivity.
  - reflexivity.
  - reflexivity.
  - reflexivity.
  - intro H. vm_compute in H. discriminate H.
Defined.

(** ** Variant constructors *)

Lemma to_inch_inch (x : Q) : to_inch (inch x) == x.
Proof. unfold to_inch, inch. field. Qed.

Lemma to_per_inch_per_inch (x : Q) : to_per_inch (per_inch x) == x.
Proof. unfold to_per_inch, per_inch. field. Qed.

Lemma per_inch_nonzero (x : Q) : ~ x == 0 -> ~ per_inch x == 0.
Proof.
  intros H E. apply H. unfold per_inch in E.
  setoid_replace x with (x / 25.4 * 25.4) by field.
  rewrite E. reflexivity.
Qed.

Lemma inject_Z_nonzero (z : Z) : z <> 0%Z -> ~ inject_Z z == 0.
Proof.
  intros H E. apply H. unfold Qeq in E. simpl in E. lia.
Qed.

Lemma to_inch_pitch (x : Q) : ~ x == 0 -> to_inch (1 / per_inch x) == 1 / x.
Proof. intro H. unfold to_inch, per_inch. field. exact H. Qed.

(** X9.  [FractionalUTSThread.from_fraction] raises [ZeroDivisionError] on
    a zero denominator, [ValueError] on a zero thread count, and otherwise
    returns a [FractionalUTSThread] whose major diameter is the fraction in
    inches, whose density is the thread count per inch and whose pitch is
    its reciprocal in inches. *)
Theorem from_fraction_behaviour :
  forall numerator denominator count : Z,
    (denominator = 0%Z ->
     FractionalUTSThread_from_fraction numerator denominator count
     = Raise ZeroDivisionError) /\
    (denominator <> 0%Z -> count = 0%Z ->
     FractionalUTSThread_from_fraction numerator denominator count
     = Raise ValueError) /\
    (denominator <> 0%Z -> count <> 0%Z ->
     exists t,
       FractionalUTSThread_from_fraction numerator denominator count = Ok t /\
       class_of t = cls_FractionalUTSThread /\
       to_inch (major_diameter t)
         == inject_Z numerator / inject_Z denominator /\
       to_per_inch (tpi t) == inject_Z count /\
       to_inch (pitch t) == 1 / inject_Z count).
Proof.
  intros n d k. unfold FractionalUTSThread_from_fraction, Fraction.
  split; [|split].
  - intros ->. reflexivity.
  - intros Hd ->. apply Z.eqb_neq in Hd. rewrite Hd. reflexivity.
  - intros Hd Hk. apply Z.eqb_neq in Hd. rewrite Hd. simpl bind.
    unfold FractionalUTSThread_init.
    rewrite Thread_init_tpi
      by (apply per_inch_nonzero; now apply inject_Z_nonzero).
    eexists. split; [reflexivity|]. simpl.
    split; [reflexivity|]. split; [apply to_inch_inch|].
    split; [apply to_per_inch_per_inch|].
    apply to_inch_pitch. now apply inject_Z_nonzero.
Qed.

Lemma from_fraction_behaviour_witness :
  FractionalUTSThread_from_fraction 1 0 20 = Raise ZeroDivisionError /\
  FractionalUTSThread_from_fraction 1 4 0 = Raise ValueError /\
  exists t,
    FractionalUTSThread_from_fraction 1 4 20 = Ok t /\
    class_of t = cls_FractionalUTSThread /\
    to_inch (major_diameter t) == inject_Z 1 / inject_Z 4 /\
    to_per_inch (tpi t) == inject_Z 20 /\
    to_inch (pitch t) == 1 / inject_Z 20.
Proof.
  split; [|split].
  - apply (proj1 (from_fraction_behaviour 1 0 20)). reflexivity.
  - apply (proj1 (proj2 (from_fraction_behaviour 1 4 0)));
      [discriminate | reflexivity].
  - apply (proj2 (proj2 (from_fraction_behaviour 1 4 20))); discriminate.
Defined.

(** X10.  [NumberedUTSThread.from_number] raises [ValueError] on a zero
    thread count, and otherwise returns a [NumberedUTSThread] that keeps its
    number, whose major diameter is 0.013 inch times the number plus 0.06
    inch, whose density is the thread count per inch and whose pitch is its
    reciprocal in inches. *)
Theorem from_number_behaviour :
  forall gauge count : Z,
    (count = 0%Z ->
     NumberedUTSThread_from_number gauge count = Raise ValueError) /\
    (count <> 0%Z ->
     exists t,
       NumberedUTSThread_from_number gauge count = Ok t /\
       class_of t = cls_NumberedUTSThread /\
       number t = Some gauge /\
       to_inch (major_diameter t) == 0.013 * inject_Z gauge + 0.06 /\
       to_per_inch (tpi t) == inject_Z count /\
       to_inch (pitch t) == 1 / inject_Z count).
Proof.
  intros g k. unfold NumberedUTSThread_from_number, NumberedUTSThread_init.
  split.
  - intros ->. reflexivity.
  - intro Hk.
    rewrite Thread_init_tpi
      by (apply per_inch_nonzero; now apply inject_Z_nonzero).
    eexists. split; [reflexivity|]. simpl.
    split; [reflexivity|]. split; [reflexivity|].
    split; [unfold to_inch, inch; field|].
    split; [apply to_per_inch_per_inch|].
    apply to_inch_pitch. now apply inject_Z_nonzero.
Qed.

Lemma from_number_behaviour_witness :
  NumberedUTSThread_from_number 0 0 = Raise ValueError /\
  exists t,
    NumberedUTSThread_from_number 0 80 = Ok t /\
    class_of t = cls_NumberedUTSThread /\
    number t = Some 0%Z /\
    to_inch (major_diameter t) == 0.013 * inject_Z 0 + 0.06 /\
    to_per_inch (tpi t) == inject_Z 80 /\
    to_inch (pitch t) == 1 / inject_Z 80.
Proof.
  split.
  - apply (proj1 (from_number_behaviour 0 0)). reflexivity.
  - apply (proj2 (from_number_behaviour 0 80)). discriminate.
Defined.

(** ** Catalog generation: size, full order, stability *)

Lemma combinations2_length {A : Type} (l : list A) :
  (2 * length (combinations2 l) = length l * (length l - 1))%nat.
Proof.
  induction l as [|x r IH]; simpl; [reflexivity|].
  rewrite length_app, length_map. nia.
Qed.

(** What [differentials] returns is the sorted list of the differentials
    constructed, in enumeration order, from the combinations that pass the
    filter. *)
Lemma differentials_inv (threads : list Thread)
    (ds : list DifferentialThread) :
  differentials threads = Ok ds ->
  exists pre,
    Forall2 (fun tp d => DifferentialThread_init tp = Ok d)
            (filter pitch_differs (combinations2 threads)) pre /\
    map thread_pair pre = filter pitch_differs (combinations2 threads) /\
    ds = sorted DifferentialThread_lt pre.
Proof.
  unfold differentials. intro H.
  destruct (mapM_Ok DifferentialThread_init
              (filter pitch_differs (combinations2 threads)))
    as [pre [E F]].
  - intros [a b] K. apply filter_In in K as [_ K].
    apply pitch_differs_iff in K. now apply DifferentialThread_init_total.
  - rewrite E in H. simpl in H. injection H as <-.
    exists pre. split; [exact F|]. split; [|reflexivity].
    now apply constructed_pairs.
Qed.

(** X11.  The number of differentials generated is the number of position
    pairs with different pitches, at most [n (n - 1) / 2] for [n] threads;
    nothing is generated from fewer than two threads, nor from threads that
    all have the same pitch. *)
Theorem differentials_count :
  forall (threads : list Thread) (ds : list DifferentialThread),
    differentials threads = Ok ds ->
    length ds = length (filter pitch_differs (combinations2 threads)) /\
    (2 * length ds <= length threads * (length threads - 1))%nat /\
    ((length threads <= 1)%nat -> ds = []) /\
    ((forall a b, In a threads -> In b threads -> pitch a == pitch b) ->
     ds = []).
Proof.
  intros threads ds H.
  destruct (differentials_inv threads ds H) as [pre [_ [M ->]]].
  assert (L : length (sorted DifferentialThread_lt pre)
              = length (filter pitch_differs (combinations2 threads))).
  { rewrite (Permutation_length (sorted_perm DifferentialThread_lt pre)).
    now rewrite <- M, length_map. }
  split; [exact L|]. split; [|split].
  - rewrite L, <- combinations2_length.
    pose proof (filter_length_le pitch_differs (combinations2 threads)).
    lia.
  - intro K. apply length_zero_iff_nil. rewrite L.
    destruct threads as [|x [|y r]]; simpl in *; try reflexivity; lia.
  - intro K. apply length_zero_iff_nil. rewrite L.
    apply length_zero_iff_nil.
    destruct (filter pitch_differs (combinations2 threads))
      as [|[a b] r] eqn:E; [reflexivity|]. exfalso.
    assert (I : In (a, b) (filter pitch_differs (combinations2 threads)))
      by (rewrite E; now left).
    apply filter_In in I as [I1 I2]. apply pitch_differs_iff in I2.
    apply combinations2_In in I1 as [Ia Ib]. apply I2. now apply K.
Qed.

Lemma differentials_count_witness :
  length small_output
  = length (filter pitch_differs (combinations2 small_catalog)) /\
  (2 * length small_output
   <= length small_catalog * (length small_catalog - 1))%nat.
Proof.
  destruct (differentials_count small_catalog small_output
              small_output_generated) as [H1 [H2 _]].
  split; [exact H1 | exact H2].
Defined.

Lemma StronglySorted_nth {A : Type} (R : A -> A -> Prop) (l : list A) :
  StronglySorted R l ->
  forall (i j : nat) (x y : A),
    (i < j)%nat -> nth_error l i = Some x -> nth_error l j = Some y -> R x y.
Proof.
  induction 1 as [|a r Hr IH Ha]; intros i j x y L Hx Hy.
  - destruct i; discriminate.
  - destruct j as [|j]; [lia|]. simpl in Hy.
    destruct i as [|i]; simpl in Hx.
    + injection Hx as <-. rewrite Forall_forall in Ha. apply Ha.
      now apply nth_error_In in Hy.
    + apply (IH i j); [lia | assumption | assumption].
Qed.

(** X12.  In the generated sequence every differential stands before every
    later one in the full order: its effective pitch is smaller, or the
    effective pitches are equal and its radial clearance is not larger. *)
Theorem output_sorted_lexicographically :
  forall (threads : list Thread) (ds : list DifferentialThread)
         (i j : nat) (d1 d2 : DifferentialThread),
    differentials threads = Ok ds ->
    (i < j)%nat ->
    nth_error ds i = Some d1 -> nth_error ds j = Some d2 ->
    effective_pitch d1 < effective_pitch d2 \/
    (effective_pitch d1 == effective_pitch d2 /\
     radial_clearance d1 <= radial_clearance d2).
Proof.
  intros threads ds i j d1 d2 H L H1 H2.
  destruct (differentials_Ok threads) as [ds' [E [_ S]]].
  rewrite E in H. injection H as ->.
  pose proof (StronglySorted_nth _ _ S i j d1 d2 L H1 H2) as K.
  unfold precedes, DifferentialThread_lt in K.
  apply tuple_lt_false_iff in K. simpl in K.
  destruct K as [K | [K1 K2]]; [now left|].
  right. split; [now symmetry | exact K2].
Qed.

Lemma output_sorted_lexicographically_witness :
  exists d1 d2,
    nth_error small_output 0 = Some d1 /\
    nth_error small_output 3 = Some d2 /\
    (effective_pitch d1 < effective_pitch d2 \/
     (effective_pitch d1 == effective_pitch d2 /\
      radial_clearance d1 <= radial_clearance d2)).
Proof.
  eexists. eexists. split; [reflexivity|]. split; [reflexivity|].
  apply (output_sorted_lexicographically small_catalog small_output
           0%nat 3%nat).
  - exact small_output_generated.
  - lia.
  - reflexivity.
  - reflexivity.
Defined.

Section Stability.
Context {A : Type} (lt : A -> A -> bool).

Hypothesis lt_asym : forall x y, lt x y = true -> lt y x = false.
Hypothesis precedes_trans :
  forall x y z, precedes lt x y -> precedes lt y z -> precedes lt x z.

Lemma tied_precedes (x y : A) :
  tied lt x y = true -> precedes lt x y /\ precedes lt y x.
Proof.
  unfold tied, precedes. intro H. apply andb_prop in H as [H1 H2].
  apply negb_true_iff in H1, H2. auto.
Qed.

Lemma insert_stable (x y : A) (l : list A) :
  StronglySorted (precedes lt) l ->
  filter (tied lt x) (insert lt y l)
  = filter (tied lt x) l ++ (if tied lt x y then [y] else []).
Proof.
  induction 1 as [|z r Hr IH Hz]; simpl.
  - destruct (tied lt x y); reflexivity.
  - destruct (lt y z) eqn:E; simpl.
    + destruct (tied lt x y) eqn:Exy; [|now rewrite app_nil_r].
      assert (N : forall w, In w (z :: r) -> tied lt x w = false).
      { intros w Hw. destruct (tied lt x w) eqn:Exw; [|reflexivity]. exfalso.
        apply tied_precedes in Exy as [Pxy _].
        apply tied_precedes in Exw as [_ Pwx].
        assert (Pzw : precedes lt z w).
        { destruct Hw as [<- | Hw].
          - unfold precedes. destruct (lt z z) eqn:Z; [|reflexivity].
            now rewrite (lt_asym _ _ Z) in Z.
          - rewrite Forall_forall in Hz. now apply Hz. }
        pose proof (precedes_trans z w x Pzw Pwx) as Pzx.
        pose proof (precedes_trans z x y Pzx Pxy) as Pzy.
        unfold precedes in Pzy. congruence. }
      assert (F : filter (tied lt x) (z :: r) = []).
      { clear -N. induction (z :: r) as [|w t IHt]; simpl; [reflexivity|].
        rewrite (N w (or_introl eq_refl)). apply IHt.
        intros v Hv. apply N. now right. }
      simpl in F. now rewrite F.
    + rewrite IH. now destruct (tied lt x z).
Qed.

Lemma fold_insert_stable (x : A) (l acc : list A) :
  StronglySorted (precedes lt) acc ->
  filter (tied lt x) (fold_left (fun acc y => insert lt y acc) l acc)
  = filter (tied lt x) acc ++ filter (tied lt x) l.
Proof.
  revert acc. induction l as [|y r IH]; intros acc H; simpl.
  - now rewrite app_nil_r.
  - rewrite IH by (now apply insert_sorted).
    rewrite (insert_stable x y acc H), <- app_assoc.
    now destruct (tied lt x y).
Qed.

(** [sorted] keeps the elements tied with a given one in their order. *)
Lemma sorted_stable (x : A) (l : list A) :
  filter (tied lt x) (sorted lt l) = filter (tied lt x) l.
Proof.
  unfold sorted. rewrite fold_insert_stable by constructor. reflexivity.
Qed.
End Stability.

(** X13.  Sorting keeps the enumeration order among ties: for any
    differential [x], the generated differentials that are tied with [x]
    (equal effective pitch and equal radial clearance) stand in the order in
    which their thread pairs were enumerated. *)
Theorem output_stable :
  forall (threads : list Thread) (ds : list DifferentialThread),
    differentials threads = Ok ds ->
    exists pre,
      map thread_pair pre = filter pitch_differs (combinations2 threads) /\
      Permutation ds pre /\
      forall x : DifferentialThread,
        (forall y, tied DifferentialThread_lt x y = true <->
                   effective_pitch x == effective_pitch y /\
                   radial_clearance x == radial_clearance y) /\
        filter (tied DifferentialThread_lt x) ds
        = filter (tied DifferentialThread_lt x) pre.
Proof.
  intros threads ds H.
  destruct (differentials_inv threads ds H) as [pre [_ [M ->]]].
  exists pre. split; [exact M|]. split; [apply sorted_perm|].
  intro x. split.
  - intro y. unfold tied, DifferentialThread_lt.
    rewrite andb_true_iff, !negb_true_iff, !tuple_lt_false_iff. simpl.
    split.
    + intros [[H1 | [H1 H2]] [K1 | [K1 K2]]]; try (exfalso; lra).
      split; [exact H1 | lra].
    + intros [E1 E2]. split; right; split; lra.
  - apply sorted_stable.
    + exact DifferentialThread_lt_asym.
    + exact DifferentialThread_precedes_trans.
Qed.

Lemma output_stable_witness :
  exists pre,
    map thread_pair pre
    = filter pitch_differs (combinations2 repeating_catalog) /\
    Permutation
      [differential_of M1_025 M1p2_02 M1_025 M1p2_02;
       differential_of M1p2_02 M1_025 M1_025 M1p2_02] pre /\
    forall x : DifferentialThread,
      (forall y, tied DifferentialThread_lt x y = true <->
                 effective_pitch x == effective_pitch y /\
                 radial_clearance x == radial_clearance y) /\
      filter (tied DifferentialThread_lt x)
        [differential_of M1_025 M1p2_02 M1_025 M1p2_02;
         differential_of M1p2_02 M1_025 M1_025 M1p2_02]
      = filter (tied DifferentialThread_lt x) pre.
Proof.
  apply (output_stable repeating_catalog). reflexivity.
Defined.

Lemma constructed_from_own_pair (l : list (Thread * Thread))
    (pre : list DifferentialThread) (d : DifferentialThread) :
  Forall2 (fun tp d => DifferentialThread_init tp = Ok d) l pre ->
  In d pre -> DifferentialThread_init (thread_pair d) = Ok d.
Proof.
  induction 1 as [|tp d0 l ds0 E _ IH]; [contradiction|].
  intros [<- | Hd]; [|now apply IH].
  destruct (DifferentialThread_init_Ok _ _ E) as [_ [_ [_ [_ [_ [T _]]]]]].
  now rewrite T.
Qed.

(** X14.  Every generated differential is the one the constructor returns
    for its own thread pair, and that pair is a combination of two input
    threads with different pitches. *)
Theorem output_constructed_from_own_pair :
  forall (threads : list Thread) (ds : list DifferentialThread)
         (d : DifferentialThread),
    differentials threads = Ok ds ->
    In d ds ->
    DifferentialThread_init (thread_pair d) = Ok d /\
    In (thread_pair d) (combinations2 threads) /\
    ~ pitch (fst (thread_pair d)) == pitch (snd (thread_pair d)).
Proof.
  intros threads ds d H Hd.
  destruct (differentials_inv threads ds H) as [pre [F [M ->]]].
  apply (Permutation_in _ (sorted_perm DifferentialThread_lt pre)) in Hd.
  split; [exact (constructed_from_own_pair _ _ _ F Hd)|].
  apply (in_map thread_pair) in Hd. rewrite M in Hd.
  apply filter_In in Hd as [K1 K2]. split; [exact K1|].
  now apply pitch_differs_iff.
Qed.

Lemma output_constructed_from_own_pair_witness :
  DifferentialThread_init
    (thread_pair (differential_of M1_025 M1p2_02 M1_025 M1p2_02))
  = Ok (differential_of M1_025 M1p2_02 M1_025 M1p2_02) /\
  In (thread_pair (differential_of M1_025 M1p2_02 M1_025 M1p2_02))
     (combinations2 repeating_catalog) /\
  ~ pitch (fst (thread_pair (differential_of M1_025 M1p2_02 M1_025 M1p2_02)))
    == pitch (snd (thread_pair
                     (differential_of M1_025 M1p2_02 M1_025 M1p2_02))).
Proof.
  apply (output_constructed_from_own_pair repeating_catalog
           [differential_of M1_025 M1p2_02 M1_025 M1p2_02;
            differential_of M1p2_02 M1_025 M1_025 M1p2_02]).
  - reflexivity.
  - now left.
Defined.

(** ** Metric threads and equality *)

(** X15.  [ISOThread.from_mm] raises [ValueError] on a pitch of zero, and
    otherwise returns an [ISOThread] with the given major diameter and
    pitch, the reciprocal of the pitch as density, and no number. *)
Theorem from_mm_behaviour :
  forall major p : Q,
    (p == 0 -> ISOThread_from_mm major p = Raise ValueError) /\
    (~ p == 0 ->
     exists t,
       ISOThread_from_mm major p = Ok t /\
       class_of t = cls_ISOThread /\
       major_diameter t = major /\ pitch t = p /\ tpi t = 1 / p /\
       number t = None).
Proof.
  intros major p.
  unfold ISOThread_from_mm, ISOThread_init, mm. split.
  - intro H. unfold Thread_init. simpl truthy.
    apply Qeq_bool_iff in H. now rewrite H.
  - intro H. rewrite Thread_init_pitch by exact H.
    eexists. split; [reflexivity|]. repeat split.
Qed.

Lemma from_mm_behaviour_witness :
  ISOThread_from_mm 1 (0 # 5) = Raise ValueError /\
  exists t,
    ISOThread_from_mm 1 0.25 = Ok t /\
    class_of t = cls_ISOThread /\
    major_diameter t = 1 /\ pitch t = 0.25 /\ tpi t = 1 / 0.25 /\
    number t = None.
Proof.
  split.
  - apply (proj1 (from_mm_behaviour 1 (0 # 5))). reflexivity.
  - apply (proj2 (from_mm_behaviour 1 0.25)).
    intro H. vm_compute in H. discriminate H.
Defined.

(** X16.  Two constructed threads are unequal under [!=] unless they have
    the same class, the same major diameter and the same pitch: threads of
    different classes are unequal even when their geometry agrees. *)
Theorem Thread_ne_false_iff :
  forall a b : Thread,
    built a -> built b ->
    (Thread_ne a b = false <->
     class_of a = class_of b /\
     major_diameter a == major_diameter b /\
     pitch a == pitch b).
Proof.
  intros a b Ha Hb.
  destruct (built_relations a Ha) as [Ea [Na Ta]].
  destruct (built_relations b Hb) as [Eb [Nb Tb]].
  unfold Thread_ne, Thread_eq. split.
  - destruct (cls_eqb (class_of b) (class_of a)) eqn:C; [|discriminate].
    intro H. apply negb_false_iff in H.
    apply andb_prop in H as [H _]. apply andb_prop in H as [H H3].
    apply andb_prop in H as [H1 _].
    apply Qeq_bool_iff in H1, H3.
    split; [|split; assumption].
    destruct (class_of a), (class_of b); try discriminate; reflexivity.
  - intros [C [HM HP]]. rewrite C.
    replace (cls_eqb (class_of b) (class_of b)) with true
      by (now destruct (class_of b)).
    assert (Hm : minor_diameter a == minor_diameter b).
    { rewrite Ea, Eb, HM, HP. reflexivity. }
    destruct (built_same_diameters a b Ha Hb HM Hm) as [_ HT].
    rewrite (Qeq_eq_bool _ _ HM), (Qeq_eq_bool _ _ Hm),
      (Qeq_eq_bool _ _ HP), (Qeq_eq_bool _ _ HT).
    reflexivity.
Qed.

Lemma Thread_ne_false_iff_witness :
  Thread_ne U_quarter_20 F_quarter_20 = false <->
  class_of U_quarter_20 = class_of F_quarter_20 /\
  major_diameter U_quarter_20 == major_diameter F_quarter_20 /\
  pitch U_quarter_20 == pitch F_quarter_20.
Proof.
  apply (Thread_ne_false_iff U_quarter_20 F_quarter_20).
  - exists cls_UTSThread, None, (inch (1 # 4)), None, (Some (per_inch 20)).
    reflexivity.
  - exists cls_FractionalUTSThread, None, (inch (inject_Z 1 / inject_Z 4)),
      None, (Some (per_inch (inject_Z 20))).
    reflexivity.
Defined.
